(** * Chudnovsky series for pi: a shallow embedding of [src/main.py]

    The numeric core of the program is embedded function by function:
    [compute_pi_terms], [high_precision_sqrt], [high_precision_division]
    and the three inline stages of [main] (range partition, merge fold and
    rounding).  Python integers are [Z]; [//] and [%] are [Z.div] and
    [Z.modulo] (both round towards minus infinity, like Python) guarded by
    an explicit zero test; exceptions and loops that may not stop are made
    explicit in the [outcome] type. *)

From Stdlib Require Import ZArith QArith List String Ascii Lia Permutation.
From Stdlib Require Import Znumtheory Qreduction Lqa.
Import ListNotations.

Local Open Scope Z_scope.

(** ** Outcomes of Python computations *)

Inductive exn : Type :=
| ValueError
| ZeroDivisionError
| IndexError.

(** [OutOfFuel] is not a Python result: it says that the loop bound given
    to a [while] loop of the model was used up before the loop stopped. *)
Inductive outcome (A : Type) : Type :=
| Ret (a : A)
| Raise (e : exn)
| OutOfFuel.

Arguments Ret {A} a.
Arguments Raise {A} e.
Arguments OutOfFuel {A}.

Definition bind {A B : Type} (c : outcome A) (k : A -> outcome B) : outcome B :=
  match c with
  | Ret a => k a
  | Raise e => Raise e
  | OutOfFuel => OutOfFuel
  end.

Notation "x <- c ;; k" := (bind c (fun x => k))
  (at level 61, c at next level, right associativity).

(** [a // b] *)
Definition floordiv (a b : Z) : outcome Z :=
  if b =? 0 then Raise ZeroDivisionError else Ret (a / b).

(** [a % b] *)
Definition pymod (a b : Z) : outcome Z :=
  if b =? 0 then Raise ZeroDivisionError else Ret (a mod b).

(** [range(a, b)] over integers. *)
Definition range (a b : Z) : list Z :=
  map (fun i => a + Z.of_nat i) (seq 0 (Z.to_nat (b - a))).

(** ** [high_precision_sqrt] *)

(** First loop of the function:
    [while True: y = (x + n // x) // 2; if y >= x: break; x = y]. *)
Fixpoint sqrt_prepass (fuel : nat) (n x : Z) : outcome Z :=
  match fuel with
  | O => OutOfFuel
  | S fuel' =>
      q <- floordiv n x ;;
      let y := (x + q) / 2 in
      if y >=? x then Ret x else sqrt_prepass fuel' n y
  end.

(** Second loop:
    [while x != prev_x: prev_x = x; x = (x + scaled_n // x) // 2].
    One unit of fuel is spent on each evaluation of the loop test. *)
Fixpoint sqrt_newton (fuel : nat) (scaled_n x prev_x : Z) : outcome Z :=
  match fuel with
  | O => OutOfFuel
  | S fuel' =>
      if x =? prev_x then Ret x
      else
        q <- floordiv scaled_n x ;;
        sqrt_newton fuel' scaled_n ((x + q) / 2) x
  end.

(** The initial guess shared by both loops: [x = m // 2; if x == 0: x = 1]. *)
Definition initial_guess (m : Z) : Z :=
  let x := m / 2 in if x =? 0 then 1 else x.

(** [precision] is a non-negative integer in every call of the program;
    there [10**(2 * precision)] is the integer power. *)
Definition high_precision_sqrt (fuel : nat) (n precision : Z) : outcome Z :=
  _ <- sqrt_prepass fuel n (initial_guess n) ;;
  let scaled_n := n * 10 ^ (2 * precision) in
  sqrt_newton fuel scaled_n (initial_guess scaled_n) (-1).

(** The sequence of values taken by [x] in the second loop, without the
    loop test: [newton_seq scaled_n k] is [x] after [k] updates. *)
Fixpoint newton_seq (scaled_n : Z) (k : nat) : Z :=
  match k with
  | O => initial_guess scaled_n
  | S k' => let x := newton_seq scaled_n k' in (x + scaled_n / x) / 2
  end.

(** ** [compute_pi_terms] *)

Definition C : Z := 640320 ^ 3.

(** [math.factorial]: the product [1 * 2 * ... * n], kept in [Z]. *)
Fixpoint fact_nat (n : nat) : Z :=
  match n with
  | O => 1
  | S m => Z.of_nat (S m) * fact_nat m
  end.

Definition factorial (n : Z) : outcome Z :=
  if n <? 0 then Raise ValueError else Ret (fact_nat (Z.to_nat n)).

(** The quantities the loop carries from one [k] to the next. *)
Record RecurrenceState : Type := mkState {
  fact_6k : Z;
  fact_3k : Z;
  fact_k_cubed : Z;
  C_power : Z;
  linear_term : Z
}.

(** Lines 27-41: the state for [k = start]. *)
Definition initial_state (start : Z) : outcome RecurrenceState :=
  if start =? 0 then Ret (mkState 1 1 1 1 13591409)
  else
    f6 <- factorial (6 * start) ;;
    f3 <- factorial (3 * start) ;;
    fact_k <- factorial start ;;
    Ret (mkState f6 f3 (fact_k ^ 3) (C ^ start) (545140134 * start + 13591409)).

(** Lines 48-64: the incremental update done when [k > start]. *)
Definition advance (k : Z) (s : RecurrenceState) : RecurrenceState :=
  mkState
    (fold_left Z.mul (range (6 * k - 5) (6 * k + 1)) (fact_6k s))
    (fold_left Z.mul (range (3 * k - 2) (3 * k + 1)) (fact_3k s))
    (fact_k_cubed s * k ^ 3)
    (C_power s * C)
    (linear_term s + 545140134).

(** Lines 73-83 (and again 253-261 in [main]): exact fraction addition
    [a/b + c/d = (a*d + c*b) / (b*d)] followed by the conditional division
    by the gcd.  [math.gcd] is the non-negative gcd, as [Z.gcd] is. *)
Definition add_reduce (total : Z * Z) (numerator denominator : Z) : Z * Z :=
  let '(total_num, total_den) := total in
  let new_num := total_num * denominator + numerator * total_den in
  let new_den := total_den * denominator in
  let gcd_val := Z.gcd (Z.abs new_num) new_den in
  if gcd_val >? 1 then (new_num / gcd_val, new_den / gcd_val)
  else (new_num, new_den).

(** One pass through the body of [for k in range(start, end + 1)]. *)
Definition term_step (start : Z) (st : RecurrenceState * (Z * Z)) (k : Z)
  : RecurrenceState * (Z * Z) :=
  let '(rs, total) := st in
  let rs := if k >? start then advance k rs else rs in
  let sign := if k mod 2 =? 0 then 1 else -1 in
  let numerator := sign * fact_6k rs * linear_term rs in
  let denominator := fact_3k rs * fact_k_cubed rs * C_power rs in
  (rs, if numerator =? 0 then total else add_reduce total numerator denominator).

(** The loop state after the indices [ks] have been processed. *)
Definition run_terms (start : Z) (rs : RecurrenceState) (ks : list Z)
  : RecurrenceState * (Z * Z) :=
  fold_left (term_step start) ks (rs, (0, 1)).

Definition compute_pi_terms (start end_ : Z) : outcome (Z * Z) :=
  rs <- initial_state start ;;
  Ret (snd (run_terms start rs (range start (end_ + 1)))).

(** *** The series as the specification writes it *)

Definition term_num (k : Z) : Z :=
  (-1) ^ k * fact_nat (Z.to_nat (6 * k)) * (545140134 * k + 13591409).

Definition term_den (k : Z) : Z :=
  fact_nat (Z.to_nat (3 * k)) * fact_nat (Z.to_nat k) ^ 3 * (640320 ^ 3) ^ k.

Definition term (k : Z) : Q := (inject_Z (term_num k) / inject_Z (term_den k))%Q.

(** [sum of term k for k = start .. end_]. *)
Definition series_sum (start end_ : Z) : Q :=
  fold_left (fun acc k => (acc + term k)%Q) (range start (end_ + 1)) 0%Q.

(** The same range summed with every term recomputed from its factorials,
    nothing being carried from one index to the next. *)
Definition from_scratch (start end_ : Z) : Z * Z :=
  fold_left (fun total k => add_reduce total (term_num k) (term_den k))
            (range start (end_ + 1)) (0, 1).

(** The rational number a numerator/denominator pair stands for. *)
Definition Qvalue (r : Z * Z) : Q := (inject_Z (fst r) / inject_Z (snd r))%Q.

(** The invariant of the [Rational] data model together with lowest terms. *)
Definition positive_den (r : Z * Z) : Prop := 0 < snd r.
Definition lowest_terms (r : Z * Z) : Prop := Z.gcd (Z.abs (fst r)) (snd r) = 1.

(** ** The stages of [main] *)

(** Line 198-204. *)
Definition estimate_terms_needed (precision_digits : Z) : Z :=
  let base_terms := Z.max 10 (precision_digits / 14) in
  Z.min (base_terms + 10) 100000.

(** Lines 231-235: the list of [(start, end)] pairs handed to the workers. *)
Definition partition_ranges (total_terms num_cores : Z) : outcome (list (Z * Z)) :=
  chunk_size <- floordiv (total_terms + num_cores - 1) num_cores ;;
  Ret (map (fun i => (i * chunk_size,
                      Z.min ((i + 1) * chunk_size - 1) total_terms))
           (range 0 num_cores)).

(** Line 230 followed by 231-235. *)
Definition main_ranges (cpu_count total_terms : Z) : outcome (list (Z * Z)) :=
  partition_ranges total_terms (Z.min cpu_count total_terms).

(** The indices a pair [(start, end)] makes [compute_pi_terms] visit. *)
Definition covers (r : Z * Z) (k : Z) : Prop := fst r <= k <= snd r.
Definition empty_range (r : Z * Z) : Prop := snd r < fst r.

(** Lines 249-261: [results[0]] and then a left fold over the rest. *)
Definition merge_step (acc : Z * Z) (r : Z * Z) : Z * Z :=
  add_reduce acc (fst r) (snd r).

Definition merge_results (results : list (Z * Z)) : outcome (Z * Z) :=
  match results with
  | [] => Raise IndexError
  | r0 :: rest => Ret (fold_left merge_step rest r0)
  end.

(** ** Strings

    A Python [str] is a list of characters; literals are written with
    [chars]. *)

Definition pystr : Type := list ascii.

Definition chars (s : string) : pystr := list_ascii_of_string s.

(** The character of a decimal digit [0..9]. *)
Definition digit_char (d : Z) : ascii := ascii_of_nat (48 + Z.to_nat d).

(** The digit a character stands for, if it is one of ['0'..'9']. *)
Definition digit_of_char (c : ascii) : option Z :=
  let n := Z.of_nat (nat_of_ascii c) in
  if (48 <=? n) && (n <=? 57) then Some (n - 48) else None.

(** Decimal digits of a non-negative integer, most significant first,
    pushed in front of [acc].  [fuel] bounds the number of digits. *)
Fixpoint str_digits (fuel : nat) (n : Z) (acc : pystr) : pystr :=
  match fuel with
  | O => acc
  | S fuel' =>
      let acc' := digit_char (n mod 10) :: acc in
      if n <? 10 then acc' else str_digits fuel' (n / 10) acc'
  end.

(** A number below [2^f] has at most [f] decimal digits. *)
Definition str_nonneg (n : Z) : pystr :=
  str_digits (S (Z.to_nat (Z.log2 n))) n [].

(** [str(n)] for an integer [n]. *)
Definition str (n : Z) : pystr :=
  if n <? 0 then "-"%char :: str_nonneg (- n) else str_nonneg n.

(** The value of a run of digit characters read after [acc]. *)
Fixpoint int_digits (s : pystr) (acc : Z) : option Z :=
  match s with
  | [] => Some acc
  | c :: s' =>
      match digit_of_char c with
      | Some d => int_digits s' (acc * 10 + d)
      | None => None
      end
  end.

(** [int(s)] on the texts the program gives it: a non-empty run of ASCII
    digits is read in base ten and the empty text raises [ValueError].
    Signs, blanks and underscores, which Python also accepts, never reach
    these calls and are not modelled: such a text is answered with
    [ValueError] here. *)
Definition int (s : pystr) : outcome Z :=
  match s with
  | [] => Raise ValueError
  | _ => match int_digits s 0 with
         | Some v => Ret v
         | None => Raise ValueError
         end
  end.

Definition len (s : pystr) : Z := Z.of_nat (List.length s).

(** [s.zfill(width)]: zeros on the left, after a leading sign if any. *)
Definition zfill (s : pystr) (width : Z) : pystr :=
  let pad := repeat "0"%char (Z.to_nat (width - len s)) in
  match s with
  | c :: s' =>
      if (Ascii.eqb c "+" || Ascii.eqb c "-")%bool then c :: pad ++ s'
      else pad ++ s
  | [] => pad
  end.

(** ** [high_precision_division] *)

(** Lines 122-128, [count] iterations being left.  The divisor is not zero
    here: line 117 has already divided by it. *)
Fixpoint division_loop (count : nat) (denominator remainder : Z)
         (decimal_digits : list pystr) : list pystr :=
  match count with
  | O => decimal_digits
  | S count' =>
      if remainder =? 0 then decimal_digits
      else
        let remainder := remainder * 10 in
        let digit := remainder / denominator in
        division_loop count' denominator (remainder mod denominator)
                      (decimal_digits ++ [str digit])
  end.

(** Lines 131-132: ['0'] is appended until the list has [digits + 1]
    entries. *)
Definition pad_digits (decimal_digits : list pystr) (digits : Z) : list pystr :=
  decimal_digits ++
  repeat (chars "0"%string) (Z.to_nat (digits + 1 - Z.of_nat (List.length decimal_digits))).

Definition high_precision_division (numerator denominator digits : Z)
  : outcome pystr :=
  _ <- floordiv numerator denominator ;;
  remainder <- pymod numerator denominator ;;
  let decimal_digits :=
    division_loop (Z.to_nat (digits + 10)) denominator remainder [] in
  Ret (List.concat (pad_digits decimal_digits digits)).

(** The [j]-th digit (from 1) after the point of the fraction
    [numerator / denominator], whose integer part is its floor. *)
Definition frac_digit (numerator denominator : Z) (j : Z) : Z :=
  ((numerator mod denominator) * 10 ^ j / denominator) mod 10.

(** The [j]-th digit (from 1) after the point in the usual decimal writing
    of [numerator / denominator], the sign set apart: the digits of
    [|numerator| / |denominator|]. *)
Definition decimal_digit (numerator denominator : Z) (j : Z) : Z :=
  (Z.abs numerator * 10 ^ j / Z.abs denominator) mod 10.

(** ** The rounding step of [main], lines 279-289

    [precision_digits] is at least 20 in the program; the slices are
    modelled for [precision_digits >= 0], where [s[:p]] is [firstn] and
    [s[p]] the single character after it. *)

Definition round_decimal (decimal_str : pystr) (precision_digits : Z)
  : outcome pystr :=
  let pi_decimal := firstn (Z.to_nat precision_digits) decimal_str in
  round_digit <-
    (if len decimal_str >? precision_digits
     then int (firstn 1 (skipn (Z.to_nat precision_digits) decimal_str))
     else Ret 0) ;;
  if round_digit >=? 5 then
    v <- int pi_decimal ;;
    let num_val := v + 1 in
    let pi_decimal := zfill (str num_val) precision_digits in
    if len pi_decimal >? precision_digits then Ret (skipn 1 pi_decimal)
    else Ret pi_decimal
  else Ret pi_decimal.

(** The number written by a run of digits, [0] for the empty run. *)
Definition digits_value (s : pystr) : Z :=
  match int_digits s 0 with
  | Some v => v
  | None => 0
  end.

(** The rounded numeral before any digit is dropped: the first
    [precision_digits] digits read as an integer, plus one when the next
    digit is 5 or more. *)
Definition rounded_value (decimal_str : pystr) (precision_digits : Z) : Z :=
  let p := Z.to_nat precision_digits in
  digits_value (firstn p decimal_str) +
  (if digits_value (firstn 1 (skipn p decimal_str)) >=? 5 then 1 else 0).

(** The carry into the integer part: the rounded numeral no longer fits in
    [precision_digits] digits. *)
Definition carry_out (decimal_str : pystr) (precision_digits : Z) : bool :=
  10 ^ precision_digits <=? rounded_value decimal_str precision_digits.

Definition all_digits (s : pystr) : Prop :=
  Forall (fun c => digit_of_char c <> None) s.

(** The state the loop should hold while it works on index [k], every
    component computed from scratch. *)
Definition state_at (k : Z) : RecurrenceState :=
  mkState (fact_nat (Z.to_nat (6 * k)))
          (fact_nat (Z.to_nat (3 * k)))
          (fact_nat (Z.to_nat k) ^ 3)
          (C ^ k)
          (545140134 * k + 13591409).

(** The exact sum of the fractions of a list. *)
Definition rational_sum (l : list (Z * Z)) : Q :=
  fold_right (fun r s => (Qvalue r + s)%Q) 0%Q l.

(** What the data model asks of a [Rational], with lowest terms added. *)
Definition reduced (r : Z * Z) : Prop := positive_den r /\ lowest_terms r.

(** ** The pipeline of [main]

    The value computed by [main] between the prompt and the report: the
    prints, the timing and the memory probes are left out, [cpu_count] is
    what [mp.cpu_count()] answers. *)

(** [pool.starmap(f, ranges)]: the results in the order of the ranges; an
    exception of a worker is raised again by the pool. *)
Fixpoint starmap {A : Type} (f : Z -> Z -> outcome A) (l : list (Z * Z))
  : outcome (list A) :=
  match l with
  | [] => Ret []
  | (a, b) :: l' =>
      r <- f a b ;;
      rs <- starmap f l' ;;
      Ret (r :: rs)
  end.

(** Lines 230-261: partition, one [compute_pi_terms] per range, merge. *)
Definition series_total (cpu_count total_terms : Z) : outcome (Z * Z) :=
  ranges <- main_ranges cpu_count total_terms ;;
  results <- starmap compute_pi_terms ranges ;;
  merge_results results.

(** Lines 265-289: square root, final fraction, long division, rounding. *)
Definition final_digits (fuel : nat) (S_num S_den precision_digits : Z)
  : outcome pystr :=
  let sqrt_precision := precision_digits + 20 in
  sqrt_val <- high_precision_sqrt fuel 640320 sqrt_precision ;;
  let numerator_val := 640320 * sqrt_val * S_den in
  let denominator_val := 12 * S_num * 10 ^ sqrt_precision in
  decimal_str <-
    high_precision_division numerator_val denominator_val (precision_digits + 1) ;;
  round_decimal decimal_str precision_digits.

(** Lines 215-289. *)
Definition main_digits (fuel : nat) (cpu_count precision_digits : Z)
  : outcome pystr :=
  let total_terms := estimate_terms_needed precision_digits in
  S <- series_total cpu_count total_terms ;;
  final_digits fuel (fst S) (snd S) precision_digits.


(** The size of the [k]-th term, its sign left out. *)
Definition term_size (k : Z) : Q :=
  (inject_Z (fact_nat (Z.to_nat (6 * k)) * (545140134 * k + 13591409))
   / inject_Z (term_den k))%Q.

(** * Properties *)

(** ** The square root *)

Section NewtonCycle.

(** On [scaled_n = 3] the update sends 1 to 2 and 2 back to 1. *)
Lemma newton_3_cycle (fuel : nat) :
  sqrt_newton fuel 3 1 2 = OutOfFuel /\ sqrt_newton fuel 3 2 1 = OutOfFuel.
Proof.
  induction fuel as [|fuel [IH12 IH21]]; [split; reflexivity|].
  split; cbn [sqrt_newton]; cbn -[sqrt_newton]; assumption.
Qed.

Lemma newton_3_from_start (fuel : nat) :
  sqrt_newton fuel 3 (initial_guess 3) (-1) = OutOfFuel.
Proof.
  destruct fuel as [|fuel]; [reflexivity|].
  cbn [sqrt_newton]; cbn -[sqrt_newton].
  apply newton_3_cycle.
Qed.

Lemma newton_seq_3 (k : nat) :
  (newton_seq 3 k = 1 /\ newton_seq 3 (S k) = 2) \/
  (newton_seq 3 k = 2 /\ newton_seq 3 (S k) = 1).
Proof.
  induction k as [|k IH]; [left; split; reflexivity|].
  destruct IH as [[H0 H1]|[H0 H1]]; [right|left]; split; try assumption;
    change (newton_seq 3 (S (S k)))
      with ((newton_seq 3 (S k) + 3 / newton_seq 3 (S k)) / 2);
    rewrite H1; reflexivity.
Qed.

End NewtonCycle.

(** C8: [high_precision_sqrt(0, p)] does not return 0.  Whatever the
    precision, the first loop reaches [x = 0] after one update and the next
    [n // x] raises [ZeroDivisionError]; the second loop taken alone does
    the same on [scaled_n = 0]. *)
Theorem high_precision_sqrt_zero_raises (precision : Z) (fuel : nat) :
  high_precision_sqrt (S (S fuel)) 0 precision = Raise ZeroDivisionError /\
  sqrt_newton (S (S (S fuel))) (0 * 10 ^ (2 * precision))
              (initial_guess (0 * 10 ^ (2 * precision))) (-1)
  = Raise ZeroDivisionError.
Proof.
  split.
  - reflexivity.
  - rewrite Z.mul_0_l. reflexivity.
Qed.

(** C7: for [n = 3] and [p = 0] the second loop never reaches a fixed
    point: [x] alternates between 1 and 2, two successive values are never
    equal, and the loop uses up any bound on its number of iterations. *)
Theorem sqrt_newton_3_never_stops :
  (forall fuel : nat,
      sqrt_newton fuel (3 * 10 ^ (2 * 0)) (initial_guess (3 * 10 ^ (2 * 0))) (-1)
      = OutOfFuel) /\
  (forall k : nat, newton_seq 3 (S k) <> newton_seq 3 k).
Proof.
  split.
  - intro fuel. change (3 * 10 ^ (2 * 0)) with 3. apply newton_3_from_start.
  - intro k. destruct (newton_seq_3 k) as [[H0 H1]|[H0 H1]];
      rewrite H0, H1; discriminate.
Qed.

(** C3: [high_precision_sqrt(3, 0)] returns nothing, so not the floor of
    the square root of 3 either: the first loop stops at once and the
    second one runs for ever. *)
Theorem high_precision_sqrt_3_no_result (fuel : nat) :
  high_precision_sqrt fuel 3 0 = OutOfFuel /\
  high_precision_sqrt fuel 3 0 <> Ret (Z.sqrt (3 * 10 ^ (2 * 0))).
Proof.
  assert (H : high_precision_sqrt fuel 3 0 = OutOfFuel).
  { unfold high_precision_sqrt.
    destruct fuel as [|fuel]; [reflexivity|].
    change (sqrt_prepass (S fuel) 3 (initial_guess 3)) with (@Ret Z 1).
    cbn [bind]. change (3 * 10 ^ (2 * 0)) with 3.
    apply newton_3_from_start. }
  split; [exact H | rewrite H; discriminate].
Qed.

(** ** The Newton iteration in general *)

Section Newton.

Variable N : Z.
Hypothesis N_pos : 1 <= N.

(** One update never falls below the integer square root. *)
Lemma newton_step_lower (x : Z) : 1 <= x -> Z.sqrt N <= (x + N / x) / 2.
Proof.
  intro Hx.
  pose proof (Z.sqrt_spec N ltac:(lia)) as Hs. cbv zeta in Hs.
  pose proof (Z.sqrt_nonneg N) as Hs0.
  set (s := Z.sqrt N) in *.
  set (q := N / x).
  assert (Hq : x * q <= N < x * (q + 1)).
  { pose proof (Z.div_mod N x ltac:(lia)). pose proof (Z.mod_pos_bound N x ltac:(lia)).
    fold q in H. nia. }
  set (y := (x + q) / 2).
  assert (Hy : x + q - 1 <= 2 * y).
  { pose proof (Z.div_mod (x + q) 2 ltac:(lia)).
    pose proof (Z.mod_pos_bound (x + q) 2 ltac:(lia)). fold y in H. lia. }
  destruct (Z.le_gt_cases s y) as [|Hlt]; [assumption|exfalso].
  assert (0 <= q) by (apply Z.div_pos; lia).
  assert (H1 : y + 1 <= s) by lia.
  assert (H2 : (x + q + 1) * (x + q + 1) <= (2 * s) * (2 * s))
    by (apply Z.mul_le_mono_nonneg; lia).
  pose proof (Z.square_nonneg (x - q - 1)) as H3.
  nia.
Qed.

(** Above the square root the update goes strictly down. *)
Lemma newton_step_decreases (x : Z) :
  Z.sqrt N < x -> (x + N / x) / 2 < x.
Proof.
  intro Hx.
  pose proof (Z.sqrt_spec N ltac:(lia)) as Hs. cbv zeta in Hs.
  pose proof (Z.sqrt_nonneg N) as Hs0.
  assert (Hq : N / x < x).
  { apply Z.div_lt_upper_bound; [lia|]. nia. }
  apply Z.div_lt_upper_bound; lia.
Qed.

(** A value the update leaves unchanged is the square root, and the number
    after [N] is then not a square. *)
Lemma newton_fixed_point (x : Z) :
  1 <= x -> (x + N / x) / 2 = x ->
  x = Z.sqrt N /\ N + 1 <> (x + 1) * (x + 1).
Proof.
  intros Hx E.
  set (q := N / x) in *.
  assert (Hq : x * q <= N < x * (q + 1)).
  { pose proof (Z.div_mod N x ltac:(lia)). pose proof (Z.mod_pos_bound N x ltac:(lia)).
    fold q in H. nia. }
  assert (Hy : 2 * x <= x + q <= 2 * x + 1).
  { pose proof (Z.div_mod (x + q) 2 ltac:(lia)).
    pose proof (Z.mod_pos_bound (x + q) 2 ltac:(lia)). rewrite E in H. lia. }
  assert (Hb : x * x <= N < x * x + 2 * x) by nia.
  split; [|nia].
  symmetry. apply Z.sqrt_unique. nia.
Qed.

(** At the square root the update stays put unless [N + 1] is a square. *)
Lemma newton_step_at_sqrt :
  N + 1 <> (Z.sqrt N + 1) * (Z.sqrt N + 1) ->
  (Z.sqrt N + N / Z.sqrt N) / 2 = Z.sqrt N.
Proof.
  intro Hns.
  pose proof (Z.sqrt_spec N ltac:(lia)) as Hs. cbv zeta in Hs.
  assert (Hs1 : 1 <= Z.sqrt N).
  { destruct (Z.le_gt_cases 1 (Z.sqrt N)); [assumption|].
    pose proof (Z.sqrt_nonneg N). nia. }
  set (s := Z.sqrt N) in *.
  assert (Hq : s <= N / s <= s + 1).
  { split.
    - apply Z.div_le_lower_bound; lia.
    - assert (N / s < s + 2); [|lia].
      apply Z.div_lt_upper_bound; [lia|]. nia. }
  symmetry. apply Z.div_unique with (r := N / s - s); lia.
Qed.

Lemma initial_guess_pos (m : Z) : 0 <= m -> 1 <= initial_guess m.
Proof.
  intro H. unfold initial_guess.
  destruct (Z.eqb_spec (m / 2) 0); [lia|].
  assert (0 <= m / 2) by (apply Z.div_pos; lia). lia.
Qed.

Lemma sqrt_ge_1 : 1 <= Z.sqrt N.
Proof.
  pose proof (Z.sqrt_spec N ltac:(lia)) as Hs. cbv zeta in Hs.
  pose proof (Z.sqrt_nonneg N). nia.
Qed.

(** From a state at or above the square root whose two components differ,
    the loop returns the square root when [N + 1] is not a square. *)
Lemma sqrt_newton_descends (k : nat) :
  N + 1 <> (Z.sqrt N + 1) * (Z.sqrt N + 1) ->
  forall x prev : Z,
    Z.sqrt N <= x -> x - Z.sqrt N <= Z.of_nat k -> x <> prev ->
    exists fuel0 : nat,
      forall fuel : nat, (fuel0 <= fuel)%nat ->
        sqrt_newton fuel N x prev = Ret (Z.sqrt N).
Proof.
  intro Hns. pose proof sqrt_ge_1 as Hs1.
  induction k as [|k IH]; intros x prev Hlo Hk Hne.
  - assert (x = Z.sqrt N) by lia. subst x.
    exists 2%nat. intros fuel Hfuel.
    destruct fuel as [|[|fuel]]; try lia.
    cbn [sqrt_newton]. unfold floordiv.
    destruct (Z.eqb_spec (Z.sqrt N) prev) as [|_]; [contradiction|].
    destruct (Z.eqb_spec (Z.sqrt N) 0) as [|_]; [lia|]. cbn [bind].
    rewrite newton_step_at_sqrt by assumption.
    now rewrite Z.eqb_refl.
  - destruct (Z.eq_dec x (Z.sqrt N)) as [->|Hx].
    + apply (IH (Z.sqrt N) prev); lia.
    + pose proof (newton_step_lower x ltac:(lia)) as Hl.
      pose proof (newton_step_decreases x ltac:(lia)) as Hd.
      destruct (IH ((x + N / x) / 2) x Hl ltac:(lia) ltac:(lia)) as [fuel0 Hf].
      exists (S fuel0). intros fuel Hfuel.
      destruct fuel as [|fuel]; [lia|].
      cbn [sqrt_newton]. unfold floordiv.
      destruct (Z.eqb_spec x prev) as [|_]; [contradiction|].
      destruct (Z.eqb_spec x 0) as [|_]; [lia|]. cbn [bind].
      apply Hf. lia.
Qed.

(** The whole second loop, from its initial state. *)
Lemma sqrt_newton_returns_sqrt :
  N + 1 <> (Z.sqrt N + 1) * (Z.sqrt N + 1) ->
  exists fuel0 : nat,
    forall fuel : nat, (fuel0 <= fuel)%nat ->
      sqrt_newton fuel N (initial_guess N) (-1) = Ret (Z.sqrt N).
Proof.
  intro Hns.
  pose proof (initial_guess_pos N ltac:(lia)) as Hx0.
  set (x0 := initial_guess N) in *.
  pose proof (newton_step_lower x0 Hx0) as Hl.
  destruct (Z.eq_dec ((x0 + N / x0) / 2) x0) as [E|Hne].
  - destruct (newton_fixed_point x0 Hx0 E) as [Es _].
    exists 2%nat. intros fuel Hfuel.
    destruct fuel as [|[|fuel]]; try lia.
    cbn [sqrt_newton]. unfold floordiv.
    destruct (Z.eqb_spec x0 (-1)) as [|_]; [lia|].
    destruct (Z.eqb_spec x0 0) as [|_]; [lia|]. cbn [bind].
    rewrite E, Z.eqb_refl. now rewrite Es.
  - destruct (sqrt_newton_descends
                (Z.to_nat ((x0 + N / x0) / 2 - Z.sqrt N)) Hns
                ((x0 + N / x0) / 2) x0 Hl ltac:(lia) Hne) as [fuel0 Hf].
    exists (S fuel0). intros fuel Hfuel.
    destruct fuel as [|fuel]; [lia|].
    cbn [sqrt_newton]. unfold floordiv.
    destruct (Z.eqb_spec x0 (-1)) as [|_]; [lia|].
    destruct (Z.eqb_spec x0 0) as [|_]; [lia|]. cbn [bind].
    apply Hf. lia.
Qed.

(** When [N + 1] is a square no value is left unchanged by the update and
    the loop never stops. *)
Lemma sqrt_newton_diverges (fuel : nat) :
  N + 1 = (Z.sqrt N + 1) * (Z.sqrt N + 1) ->
  forall x prev : Z, 1 <= x -> x <> prev ->
    sqrt_newton fuel N x prev = OutOfFuel.
Proof.
  intro Hsq. pose proof sqrt_ge_1 as Hs1.
  induction fuel as [|fuel IH]; intros x prev Hx Hne; [reflexivity|].
  cbn [sqrt_newton]. unfold floordiv.
  destruct (Z.eqb_spec x prev) as [|_]; [contradiction|].
  destruct (Z.eqb_spec x 0) as [|_]; [lia|]. cbn [bind].
  apply IH.
  - pose proof (newton_step_lower x Hx). lia.
  - intro E. destruct (newton_fixed_point x Hx E) as [Es Hns].
    rewrite Es in Hns. contradiction.
Qed.

(** The first loop stops, without error. *)
Lemma sqrt_prepass_returns (k : nat) :
  forall x : Z, 1 <= x <= Z.of_nat k ->
    exists (fuel0 : nat) (r : Z),
      forall fuel : nat, (fuel0 <= fuel)%nat -> sqrt_prepass fuel N x = Ret r.
Proof.
  pose proof sqrt_ge_1 as Hs1.
  induction k as [|k IH]; intros x Hx; [lia|].
  destruct (Z_le_gt_dec x ((x + N / x) / 2)) as [Hge|Hlt].
  - exists 1%nat, x. intros fuel Hfuel. destruct fuel as [|fuel]; [lia|].
    cbn [sqrt_prepass]. unfold floordiv.
    destruct (Z.eqb_spec x 0) as [|_]; [lia|]. cbn [bind].
    destruct (Z.geb_spec ((x + N / x) / 2) x); [reflexivity|lia].
  - pose proof (newton_step_lower x ltac:(lia)) as Hl.
    destruct (IH ((x + N / x) / 2) ltac:(lia)) as (fuel0 & r & Hf).
    exists (S fuel0), r. intros fuel Hfuel. destruct fuel as [|fuel]; [lia|].
    cbn [sqrt_prepass]. unfold floordiv.
    destruct (Z.eqb_spec x 0) as [|_]; [lia|]. cbn [bind].
    destruct (Z.geb_spec ((x + N / x) / 2) x); [lia|].
    apply Hf. lia.
Qed.

(** The first loop never raises. *)
Lemma sqrt_prepass_no_error (fuel : nat) :
  forall x : Z, 1 <= x ->
    sqrt_prepass fuel N x = OutOfFuel \/ exists r, sqrt_prepass fuel N x = Ret r.
Proof.
  induction fuel as [|fuel IH]; intros x Hx; [left; reflexivity|].
  cbn [sqrt_prepass]. unfold floordiv.
  destruct (Z.eqb_spec x 0) as [|_]; [lia|]. cbn [bind].
  destruct (Z.geb_spec ((x + N / x) / 2) x); [right; eexists; reflexivity|].
  apply IH. pose proof (newton_step_lower x Hx). pose proof sqrt_ge_1. lia.
Qed.

End Newton.

(** What [high_precision_sqrt] does on every positive [n]: it returns the
    floor of the square root of [n * 10^(2p)] when the number after
    [n * 10^(2p)] is not a square, and it never returns when it is. *)
Lemma high_precision_sqrt_positive (n p : Z) :
  1 <= n -> 0 <= p ->
  let scaled_n := n * 10 ^ (2 * p) in
  (scaled_n + 1 <> (Z.sqrt scaled_n + 1) * (Z.sqrt scaled_n + 1) ->
   exists fuel0 : nat,
     forall fuel : nat, (fuel0 <= fuel)%nat ->
       high_precision_sqrt fuel n p = Ret (Z.sqrt scaled_n)) /\
  (scaled_n + 1 = (Z.sqrt scaled_n + 1) * (Z.sqrt scaled_n + 1) ->
   forall fuel : nat, high_precision_sqrt fuel n p = OutOfFuel).
Proof.
  intros Hn Hp scaled_n.
  assert (HN : 1 <= scaled_n).
  { assert (0 < 10 ^ (2 * p)) by (apply Z.pow_pos_nonneg; lia).
    subst scaled_n. nia. }
  pose proof (initial_guess_pos n ltac:(lia)) as Hx0.
  pose proof (initial_guess_pos scaled_n (Z.le_trans 0 1 _ Z.le_0_1 HN)) as Hy0.
  split.
  - intro Hns.
    destruct (sqrt_prepass_returns n Hn (Z.to_nat (initial_guess n))
                (initial_guess n) ltac:(lia)) as (f1 & r & Hf1).
    destruct (sqrt_newton_returns_sqrt scaled_n HN Hns) as (f2 & Hf2).
    exists (Nat.max f1 f2). intros fuel Hfuel. unfold high_precision_sqrt.
    rewrite Hf1 by lia. cbn [bind]. apply Hf2. lia.
  - intros Hsq fuel. unfold high_precision_sqrt.
    destruct (sqrt_prepass_no_error n Hn fuel (initial_guess n) Hx0)
      as [->|[r ->]]; [reflexivity|].
    cbn [bind]. apply sqrt_newton_diverges; try assumption.
    intro E. fold scaled_n in E. rewrite E in Hy0. lia.
Qed.

(** ** The partition of the index range *)

(** C2: with 20 terms (what a precision of 20 digits asks for) the ranges
    made for 4 workers stop at index 19 and leave index 20 to no worker,
    and the ranges made for 8 workers end with the empty range (21, 20). *)
Theorem partition_ranges_gap_and_empty :
  estimate_terms_needed 20 = 20 /\
  (exists rs, main_ranges 4 20 = Ret rs /\
              forall r, In r rs -> ~ covers r 20) /\
  (exists rs, main_ranges 8 20 = Ret rs /\
              exists r, In r rs /\ empty_range r).
Proof.
  split; [reflexivity|split].
  - exists [(0, 4); (5, 9); (10, 14); (15, 19)].
    split; [reflexivity|].
    intros r Hin [_ Hhi].
    cbn in Hin.
    repeat (destruct Hin as [<-|Hin]; [cbn in Hhi; lia|]).
    contradiction.
  - eexists. split; [reflexivity|].
    exists (21, 20). split; [do 7 right; left; reflexivity|].
    unfold empty_range; cbn; lia.
Qed.

(** ** Ranges *)

Lemma range_empty (a b : Z) : b <= a -> range a b = [].
Proof.
  intro H. unfold range.
  replace (Z.to_nat (b - a)) with 0%nat by lia. reflexivity.
Qed.

Lemma range_nat (a : Z) (n : nat) :
  range a (a + Z.of_nat n) = map (fun i => a + Z.of_nat i) (seq 0 n).
Proof.
  unfold range. replace (Z.to_nat (a + Z.of_nat n - a)) with n by lia.
  reflexivity.
Qed.

Lemma range_snoc (a b : Z) : a <= b -> range a (b + 1) = range a b ++ [b].
Proof.
  intro H. unfold range.
  replace (Z.to_nat (b + 1 - a)) with (S (Z.to_nat (b - a))) by lia.
  rewrite seq_S, map_app. cbn [map Nat.add].
  do 3 f_equal. lia.
Qed.

Lemma in_range (a b k : Z) : In k (range a b) <-> a <= k < b.
Proof.
  unfold range. rewrite in_map_iff. split.
  - intros (i & <- & Hi). apply in_seq in Hi. lia.
  - intro H. exists (Z.to_nat (k - a)). split; [lia|].
    apply in_seq. lia.
Qed.

Lemma firstn_seq_min (j s n : nat) : firstn j (seq s n) = seq s (Nat.min j n).
Proof.
  revert s n. induction j as [|j IH]; intros s [|n]; cbn; try reflexivity.
  now rewrite IH.
Qed.

Lemma firstn_range (a b : Z) (j : nat) :
  firstn j (range a b) = range a (a + Z.of_nat (Nat.min j (Z.to_nat (b - a)))).
Proof.
  rewrite range_nat. unfold range.
  rewrite firstn_map, firstn_seq_min.
  replace (Z.to_nat (a + Z.of_nat (Nat.min j (Z.to_nat (b - a))) - a))
    with (Nat.min j (Z.to_nat (b - a))) by lia.
  reflexivity.
Qed.

(** ** The partition in general *)

Lemma chunk_size_bounds (T W : Z) :
  1 <= W <= T ->
  1 <= (T + W - 1) / W /\ T <= W * ((T + W - 1) / W).
Proof.
  intro H.
  pose proof (Z.div_mod (T + W - 1) W ltac:(lia)) as E.
  pose proof (Z.mod_pos_bound (T + W - 1) W ltac:(lia)) as Hr.
  split; [|lia].
  apply Z.div_le_lower_bound; lia.
Qed.

(** The chunks tile [0 .. W * chunk_size - 1]; the clamp cuts them at [T]. *)
Lemma partition_ranges_cover (T W k : Z) :
  1 <= W <= T ->
  exists rs : list (Z * Z),
    partition_ranges T W = Ret rs /\
    ((exists r, In r rs /\ covers r k) <->
     0 <= k <= Z.min T (W * ((T + W - 1) / W) - 1)).
Proof.
  intro H. destruct (chunk_size_bounds T W H) as [Hcs HT].
  unfold partition_ranges, floordiv.
  destruct (Z.eqb_spec W 0) as [|_]; [lia|]. cbn [bind].
  set (cs := (T + W - 1) / W) in *.
  eexists. split; [reflexivity|]. split.
  - intros (r & Hin & Hlo & Hhi).
    apply in_map_iff in Hin. destruct Hin as (i & <- & Hi).
    apply in_range in Hi. cbn [fst snd] in Hlo, Hhi. nia.
  - intros Hk.
    assert (Hi : 0 <= k / cs < W).
    { split; [apply Z.div_pos; lia|].
      apply Z.div_lt_upper_bound; lia. }
    pose proof (Z.div_mod k cs ltac:(lia)) as E.
    pose proof (Z.mod_pos_bound k cs ltac:(lia)) as Hr.
    exists (k / cs * cs, Z.min ((k / cs + 1) * cs - 1) T). split.
    + apply in_map_iff. exists (k / cs). split; [reflexivity|].
      apply in_range. lia.
    + unfold covers. cbn [fst snd]. nia.
Qed.

(** Two different chunks share no index. *)
Lemma partition_ranges_disjoint (T W i j k : Z) :
  1 <= W <= T ->
  let cs := (T + W - 1) / W in
  covers (i * cs, Z.min ((i + 1) * cs - 1) T) k ->
  covers (j * cs, Z.min ((j + 1) * cs - 1) T) k ->
  i = j.
Proof.
  intros H cs [Hi1 Hi2] [Hj1 Hj2].
  destruct (chunk_size_bounds T W H) as [Hcs _]. fold cs in Hcs.
  cbn [fst snd] in *.
  destruct (Z.lt_total i j) as [Hlt|[?|Hgt]]; [exfalso|assumption|exfalso]; nia.
Qed.

(** The last index [T] is in some chunk exactly when [W] does not divide
    [T]. *)
Lemma partition_ranges_last_index (T W : Z) :
  1 <= W <= T ->
  T <= W * ((T + W - 1) / W) - 1 <-> T mod W <> 0.
Proof.
  intro H.
  pose proof (Z.div_mod T W ltac:(lia)) as E.
  pose proof (Z.mod_pos_bound T W ltac:(lia)) as Hb.
  destruct (Z.eq_dec (T mod W) 0) as [E0|Hne].
  - rewrite E0 in *.
    assert (Ecs : (T + W - 1) / W = T / W).
    { symmetry. apply Z.div_unique with (r := W - 1); lia. }
    rewrite Ecs. split; [lia|contradiction].
  - assert (Ecs : (T + W - 1) / W = T / W + 1).
    { symmetry. apply Z.div_unique with (r := T mod W - 1); lia. }
    rewrite Ecs. split; [intros _; assumption|lia].
Qed.

(** ** Factorials and the recurrence state *)

Lemma fact_nat_pos (n : nat) : 0 < fact_nat n.
Proof.
  induction n as [|n IH]; [reflexivity|].
  change (fact_nat (S n)) with (Z.of_nat (S n) * fact_nat n). nia.
Qed.

Lemma fact_nat_S (n : nat) : fact_nat (S n) = (Z.of_nat n + 1) * fact_nat n.
Proof.
  change (fact_nat (S n)) with (Z.of_nat (S n) * fact_nat n).
  rewrite Nat2Z.inj_succ. reflexivity.
Qed.

Lemma initial_state_at (start : Z) :
  0 <= start -> initial_state start = Ret (state_at start).
Proof.
  intro H. unfold initial_state, factorial.
  destruct (Z.eqb_spec start 0) as [->|Hne]; [reflexivity|].
  destruct (Z.ltb_spec (6 * start) 0); [lia|].
  destruct (Z.ltb_spec (3 * start) 0); [lia|].
  destruct (Z.ltb_spec start 0); [lia|].
  reflexivity.
Qed.

Lemma fact_6_steps (k : Z) :
  1 <= k ->
  fold_left Z.mul (range (6 * k - 5) (6 * k + 1))
            (fact_nat (Z.to_nat (6 * (k - 1))))
  = fact_nat (Z.to_nat (6 * k)).
Proof.
  intro H.
  replace (6 * k + 1) with (6 * k - 5 + Z.of_nat 6) by lia.
  rewrite range_nat. cbn [seq map fold_left].
  replace (Z.to_nat (6 * k)) with (6 + Z.to_nat (6 * (k - 1)))%nat by lia.
  cbn [Nat.add]. rewrite !fact_nat_S, !Nat2Z.inj_succ, Z2Nat.id by lia.
  cbn [Z.of_nat]. ring.
Qed.

Lemma fact_3_steps (k : Z) :
  1 <= k ->
  fold_left Z.mul (range (3 * k - 2) (3 * k + 1))
            (fact_nat (Z.to_nat (3 * (k - 1))))
  = fact_nat (Z.to_nat (3 * k)).
Proof.
  intro H.
  replace (3 * k + 1) with (3 * k - 2 + Z.of_nat 3) by lia.
  rewrite range_nat. cbn [seq map fold_left].
  replace (Z.to_nat (3 * k)) with (3 + Z.to_nat (3 * (k - 1)))%nat by lia.
  cbn [Nat.add]. rewrite !fact_nat_S, !Nat2Z.inj_succ, Z2Nat.id by lia.
  cbn [Z.of_nat]. ring.
Qed.

(** The incremental update computes exactly the from-scratch state. *)
Lemma advance_state_at (k : Z) :
  1 <= k -> advance k (state_at (k - 1)) = state_at k.
Proof.
  intro H. unfold advance, state_at. cbn [fact_6k fact_3k fact_k_cubed C_power linear_term].
  rewrite fact_6_steps, fact_3_steps by assumption.
  f_equal.
  - replace (Z.to_nat k) with (S (Z.to_nat (k - 1))) by lia.
    rewrite fact_nat_S, Z2Nat.id by lia.
    replace (k - 1 + 1) with k by lia.
    rewrite Z.pow_mul_l. ring.
  - replace k with (Z.succ (k - 1)) at 2 by lia.
    rewrite Z.pow_succ_r by lia. ring.
  - ring.
Qed.

Lemma sign_is_power (k : Z) :
  0 <= k -> (if k mod 2 =? 0 then 1 else -1) = (-1) ^ k.
Proof.
  intro H.
  destruct (Z.Even_or_Odd k) as [[m ->]|[m ->]].
  - replace ((2 * m) mod 2) with 0 by (symmetry; apply Z.mod_divide; [lia|]; exists m; ring).
    rewrite Z.pow_mul_r by lia. change ((-1) ^ 2) with 1.
    now rewrite Z.pow_1_l by lia.
  - replace ((2 * m + 1) mod 2) with 1
      by (rewrite Z.add_comm, Z.mul_comm, Z.mod_add by lia; reflexivity).
    rewrite Z.pow_add_r, Z.pow_mul_r by lia. change ((-1) ^ 2) with 1.
    now rewrite Z.pow_1_l by lia.
Qed.

Lemma term_den_pos (k : Z) : 0 <= k -> 0 < term_den k.
Proof.
  intro Hk. unfold term_den.
  pose proof (fact_nat_pos (Z.to_nat (3 * k))).
  pose proof (fact_nat_pos (Z.to_nat k)).
  assert (0 < fact_nat (Z.to_nat k) ^ 3) by (apply Z.pow_pos_nonneg; lia).
  assert (0 < (640320 ^ 3) ^ k) by (apply Z.pow_pos_nonneg; lia).
  nia.
Qed.

(** ** Exact fraction addition *)

Lemma add_reduce_div (tn td n d : Z) :
  0 < td -> 0 < d ->
  0 < Z.gcd (Z.abs (tn * d + n * td)) (td * d) /\
  add_reduce (tn, td) n d =
  ((tn * d + n * td) / Z.gcd (Z.abs (tn * d + n * td)) (td * d),
   (td * d) / Z.gcd (Z.abs (tn * d + n * td)) (td * d)).
Proof.
  intros Htd Hd.
  set (new_num := tn * d + n * td).
  set (new_den := td * d).
  set (g := Z.gcd (Z.abs new_num) new_den).
  assert (Hden : 0 < new_den) by (subst new_den; nia).
  assert (Hg : 0 < g).
  { pose proof (Z.gcd_nonneg (Z.abs new_num) new_den).
    assert (g <> 0); [|subst g; lia].
    subst g. intro E. apply Z.gcd_eq_0_r in E. lia. }
  split; [assumption|].
  unfold add_reduce. fold new_num new_den g.
  destruct (Z.gtb_spec g 1) as [|Hle]; [reflexivity|].
  replace g with 1 by lia. now rewrite !Z.div_1_r.
Qed.

Lemma Qvalue_make (a b : Z) : 0 < b -> (Qvalue (a, b) == a # Z.to_pos b)%Q.
Proof.
  intro H. unfold Qvalue. cbn [fst snd].
  rewrite Qmake_Qdiv, Z2Pos.id by assumption. reflexivity.
Qed.

(** One addition keeps the denominator positive, leaves the pair in lowest
    terms and adds the two fractions exactly. *)
Lemma add_reduce_spec (tn td n d : Z) :
  0 < td -> 0 < d ->
  positive_den (add_reduce (tn, td) n d) /\
  lowest_terms (add_reduce (tn, td) n d) /\
  (Qvalue (add_reduce (tn, td) n d) == Qvalue (tn, td) + Qvalue (n, d))%Q.
Proof.
  intros Htd Hd.
  destruct (add_reduce_div tn td n d Htd Hd) as [Hg ->].
  set (new_num := tn * d + n * td) in *.
  set (new_den := td * d) in *.
  set (g := Z.gcd (Z.abs new_num) new_den) in *.
  assert (Hden : 0 < new_den) by (subst new_den; nia).
  assert (Eg : g = Z.gcd new_num new_den) by (subst g; apply Z.gcd_abs_l).
  assert (Hn : new_num = g * (new_num / g)).
  { apply Z.div_exact; [lia|]. apply Z.mod_divide; [lia|].
    rewrite Eg. apply Z.gcd_divide_l. }
  assert (Hd' : new_den = g * (new_den / g)).
  { apply Z.div_exact; [lia|]. apply Z.mod_divide; [lia|].
    rewrite Eg. apply Z.gcd_divide_r. }
  assert (Hpos : 0 < new_den / g) by nia.
  split; [exact Hpos|split].
  - unfold lowest_terms. cbn [fst snd].
    rewrite Z.gcd_abs_l. apply Z.gcd_div_gcd; [lia|exact Eg].
  - rewrite !Qvalue_make by assumption.
    unfold Qeq, Qplus. cbn [Qnum Qden].
    rewrite Pos2Z.inj_mul, !Z2Pos.id by assumption.
    fold new_num new_den.
    rewrite Hd' at 1. rewrite Hn at 2. ring.
Qed.

(** A fraction with a positive denominator has one representative in
    lowest terms. *)
Lemma lowest_terms_unique (r1 r2 : Z * Z) :
  positive_den r1 -> lowest_terms r1 ->
  positive_den r2 -> lowest_terms r2 ->
  (Qvalue r1 == Qvalue r2)%Q -> r1 = r2.
Proof.
  destruct r1 as [a b], r2 as [c d].
  unfold positive_den, lowest_terms. cbn [fst snd].
  intros Hb Hab Hd Hcd E.
  rewrite !Qvalue_make in E by assumption.
  unfold Qeq in E. cbn [Qnum Qden] in E.
  rewrite !Z2Pos.id in E by assumption.
  rewrite Z.gcd_abs_l in Hab, Hcd.
  assert (Hbd : (b | d)).
  { apply Z.gauss with a; [|rewrite Z.gcd_comm; exact Hab].
    exists c. lia. }
  assert (Hdb : (d | b)).
  { apply Z.gauss with c; [|rewrite Z.gcd_comm; exact Hcd].
    exists a. lia. }
  assert (b = d).
  { apply Z.divide_antisym_nonneg; [lia|lia|assumption|assumption]. }
  subst d. f_equal. nia.
Qed.

(** ** The accumulation loop *)

Lemma term_num_nonzero (k : Z) : 0 <= k -> term_num k <> 0.
Proof.
  intro H. unfold term_num. rewrite <- sign_is_power by assumption.
  pose proof (fact_nat_pos (Z.to_nat (6 * k))).
  destruct (k mod 2 =? 0); nia.
Qed.

(** One pass of the loop body at index [k], entered with the state of the
    previous index (or of [start] itself on the first pass). *)
Lemma term_step_at (start k : Z) (total : Z * Z) :
  0 <= start <= k ->
  term_step start (state_at (Z.max start (k - 1)), total) k
  = (state_at k, add_reduce total (term_num k) (term_den k)).
Proof.
  intro H. unfold term_step.
  assert (E : (if k >? start then advance k (state_at (Z.max start (k - 1)))
               else state_at (Z.max start (k - 1))) = state_at k).
  { destruct (Z.gtb_spec k start).
    - rewrite Z.max_r by lia. apply advance_state_at. lia.
    - f_equal. lia. }
  rewrite E. clear E.
  cbn [state_at fact_6k fact_3k fact_k_cubed C_power linear_term].
  rewrite sign_is_power by lia.
  fold (term_num k). change C with (640320 ^ 3). fold (term_den k).
  destruct (Z.eqb_spec (term_num k) 0) as [E|_]; [|reflexivity].
  apply term_num_nonzero in E; [contradiction|lia].
Qed.

Lemma run_terms_range (start : Z) (n : nat) :
  0 <= start ->
  run_terms start (state_at start) (range start (start + Z.of_nat n))
  = (state_at (Z.max start (start + Z.of_nat n - 1)),
     fold_left (fun total k => add_reduce total (term_num k) (term_den k))
               (range start (start + Z.of_nat n)) (0, 1)).
Proof.
  intro H. unfold run_terms.
  induction n as [|n IH].
  - rewrite range_empty by lia. cbn [fold_left]. do 2 f_equal. lia.
  - replace (start + Z.of_nat (S n)) with (start + Z.of_nat n + 1) by lia.
    rewrite range_snoc by lia.
    rewrite !fold_left_app, IH. cbn [fold_left].
    rewrite term_step_at by lia.
    do 2 f_equal. lia.
Qed.

Lemma series_fold_compat (ks : list Z) (a b : Q) :
  (a == b)%Q ->
  (fold_left (fun acc k => acc + term k) ks a ==
   fold_left (fun acc k => acc + term k) ks b)%Q.
Proof.
  revert a b. induction ks as [|k ks IH]; intros a b E; cbn [fold_left].
  - exact E.
  - apply IH. now rewrite E.
Qed.

(** Folding [add_reduce] over from-scratch terms keeps the invariant and
    tracks the exact sum. *)
Lemma scratch_fold_spec (ks : list Z) :
  Forall (fun k => 0 <= k) ks ->
  forall total, positive_den total -> lowest_terms total ->
  let r := fold_left (fun total k => add_reduce total (term_num k) (term_den k))
                     ks total in
  positive_den r /\ lowest_terms r /\
  (Qvalue r == fold_left (fun acc k => acc + term k) ks (Qvalue total))%Q.
Proof.
  induction 1 as [|k ks Hk _ IH]; intros total Hpos Hlow; cbn [fold_left].
  - split; [assumption|split; [assumption|reflexivity]].
  - destruct total as [tn td].
    destruct (add_reduce_spec tn td (term_num k) (term_den k) Hpos
                (term_den_pos k Hk)) as (Hp & Hl & Hq).
    destruct (IH _ Hp Hl) as (Hp' & Hl' & Hq').
    split; [assumption|split; [assumption|]].
    rewrite Hq'. apply series_fold_compat. exact Hq.
Qed.

Lemma range_nonneg (a b : Z) : 0 <= a -> Forall (fun k => 0 <= k) (range a b).
Proof.
  intro H. apply Forall_forall. intros k Hk. apply in_range in Hk. lia.
Qed.

Lemma zero_rational : positive_den (0, 1) /\ lowest_terms (0, 1) /\ (Qvalue (0, 1)%Z == 0)%Q.
Proof. repeat split. Qed.

(** C1: on a range [0 <= start <= end] the function returns a pair with a
    positive denominator whose value is the exact sum of the terms of the
    range; the state it carries is the from-scratch state of the last
    index, and the pair is the one obtained when every term is recomputed
    from its factorials. *)
Theorem compute_pi_terms_exact (start end_ : Z) :
  0 <= start <= end_ ->
  exists num den,
    compute_pi_terms start end_ = Ret (num, den) /\
    0 < den /\
    (Qvalue (num, den) == series_sum start end_)%Q /\
    (num, den) = from_scratch start end_ /\
    (forall rs, initial_state start = Ret rs ->
                fst (run_terms start rs (range start (end_ + 1)))
                = state_at end_).
Proof.
  intro H.
  pose proof (run_terms_range start (Z.to_nat (end_ + 1 - start))) as Hrun.
  replace (start + Z.of_nat (Z.to_nat (end_ + 1 - start))) with (end_ + 1)
    in Hrun by lia.
  specialize (Hrun ltac:(lia)).
  destruct zero_rational as (Hp0 & Hl0 & Hq0).
  destruct (scratch_fold_spec (range start (end_ + 1))
              (range_nonneg start (end_ + 1) ltac:(lia)) (0, 1) Hp0 Hl0) as (Hp & _ & Hq).
  fold (from_scratch start end_) in Hrun, Hp, Hq.
  exists (fst (from_scratch start end_)), (snd (from_scratch start end_)).
  rewrite <- surjective_pairing.
  unfold compute_pi_terms.
  rewrite initial_state_at by lia. cbn [bind].
  rewrite Hrun. cbn [fst snd].
  repeat split.
  - exact Hp.
  - rewrite Hq. unfold series_sum. apply series_fold_compat. exact Hq0.
  - intros rs Hrs. injection Hrs as <-. rewrite Hrun. cbn [fst]. f_equal. lia.
Qed.

Lemma compute_pi_terms_exact_witness :
  0 <= 1 <= 2 /\
  exists num den,
    compute_pi_terms 1 2 = Ret (num, den) /\
    0 < den /\
    (Qvalue (num, den) == series_sum 1 2)%Q /\
    (num, den) = from_scratch 1 2 /\
    (forall rs, initial_state 1 = Ret rs ->
                fst (run_terms 1 rs (range 1 (2 + 1))) = state_at 2).
Proof.
  split; [lia|]. apply (compute_pi_terms_exact 1 2). lia.
Defined.

(** C9 (as the code has it): an empty range, [end < start] with
    [0 <= start], is not rejected; the loop body never runs and the
    function returns the empty sum [(0, 1)]. *)
Theorem compute_pi_terms_empty_range (start end_ : Z) :
  0 <= start -> end_ < start -> compute_pi_terms start end_ = Ret (0, 1).
Proof.
  intros H0 H. unfold compute_pi_terms.
  rewrite initial_state_at by assumption. cbn [bind].
  rewrite range_empty by lia. reflexivity.
Qed.

Lemma compute_pi_terms_empty_range_witness :
  0 <= 21 /\ 20 < 21 /\ compute_pi_terms 21 20 = Ret (0, 1).
Proof.
  split; [lia|split; [lia|]].
  apply (compute_pi_terms_empty_range 21 20); lia.
Defined.

(** C9 refuted as stated: the empty range (21, 20), which [main] itself
    produces for 20 terms and 8 workers, is answered with a value and no
    error. *)
Lemma compute_pi_terms_empty_not_rejected :
  ~ (forall start end_ : Z,
        0 <= start -> end_ < start ->
        exists e, compute_pi_terms start end_ = Raise e).
Proof.
  intro Hrej.
  destruct (Hrej 21 20 ltac:(lia) ltac:(lia)) as [e He].
  vm_compute in He. discriminate He.
Qed.

(** ** The merge fold *)

Lemma merge_step_spec (acc r : Z * Z) :
  positive_den acc -> positive_den r ->
  reduced (merge_step acc r) /\
  (Qvalue (merge_step acc r) == Qvalue acc + Qvalue r)%Q.
Proof.
  destruct acc as [tn td], r as [n d]. unfold merge_step, reduced.
  cbn [fst snd]. intros Ha Hr.
  destruct (add_reduce_spec tn td n d Ha Hr) as (Hp & Hl & Hq).
  repeat split; assumption.
Qed.

Lemma merge_fold_spec (rest : list (Z * Z)) :
  Forall positive_den rest ->
  forall acc, positive_den acc ->
  positive_den (fold_left merge_step rest acc) /\
  (rest <> [] -> lowest_terms (fold_left merge_step rest acc)) /\
  (Qvalue (fold_left merge_step rest acc) == Qvalue acc + rational_sum rest)%Q.
Proof.
  induction 1 as [|r rest Hr _ IH]; intros acc Hacc; cbn [fold_left rational_sum fold_right].
  - split; [assumption|split; [congruence|ring]].
  - destruct (merge_step_spec acc r Hacc Hr) as ([Hp Hl] & Hq).
    destruct (IH _ Hp) as (Hp' & Hl' & Hq').
    split; [assumption|split].
    + intros _. destruct rest as [|r' rest']; [exact Hl|].
      apply Hl'. discriminate.
    + fold (rational_sum rest). rewrite Hq', Hq. ring.
Qed.

Lemma rational_sum_perm (l1 l2 : list (Z * Z)) :
  Permutation l1 l2 -> (rational_sum l1 == rational_sum l2)%Q.
Proof.
  induction 1 as [|x l l' _ IH|x y l|l l' l'' _ IH1 _ IH2];
    cbn [rational_sum fold_right].
  - reflexivity.
  - fold (rational_sum l) (rational_sum l'). now rewrite IH.
  - fold (rational_sum l). ring.
  - now rewrite IH1.
Qed.

(** C6: if every chunk result has a positive denominator, the merge fold
    returns the same pair, numerator and denominator, for any two orders of
    the same results. *)
Theorem merge_results_order_independent (l1 l2 : list (Z * Z)) :
  Forall positive_den l1 -> Permutation l1 l2 ->
  merge_results l1 = merge_results l2.
Proof.
  intros Hpos Hperm.
  assert (Hpos2 : Forall positive_den l2)
    by (eapply Permutation_Forall; eassumption).
  pose proof (Permutation_length Hperm) as Hlen.
  pose proof (rational_sum_perm _ _ Hperm) as Hsum.
  destruct l1 as [|x [|y t]].
  - apply Permutation_nil in Hperm. now subst.
  - apply Permutation_length_1_inv in Hperm. now subst.
  - destruct l2 as [|x' [|y' t']]; try discriminate Hlen.
    unfold merge_results. f_equal.
    inversion Hpos as [|? ? Hx Hyt]; subst.
    inversion Hpos2 as [|? ? Hx' Hyt']; subst.
    destruct (merge_fold_spec (y :: t) Hyt x Hx) as (Hp1 & Hl1 & Hq1).
    destruct (merge_fold_spec (y' :: t') Hyt' x' Hx') as (Hp2 & Hl2 & Hq2).
    apply lowest_terms_unique; try assumption.
    + apply Hl1. discriminate.
    + apply Hl2. discriminate.
    + rewrite Hq1, Hq2. exact Hsum.
Qed.

Lemma merge_results_order_independent_witness :
  Forall positive_den [(1, 2); (1, 3); (1, 6)] /\
  Permutation [(1, 2); (1, 3); (1, 6)] [(1, 6); (1, 2); (1, 3)] /\
  merge_results [(1, 2); (1, 3); (1, 6)] = merge_results [(1, 6); (1, 2); (1, 3)].
Proof.
  assert (Hpos : Forall positive_den [(1, 2); (1, 3); (1, 6)])
    by (repeat constructor).
  assert (Hperm : Permutation [(1, 2); (1, 3); (1, 6)] [(1, 6); (1, 2); (1, 3)]).
  { apply Permutation_sym. change [(1, 2); (1, 3); (1, 6)] with ([(1, 2); (1, 3)] ++ [(1, 6)]).
    apply Permutation_cons_append. }
  split; [exact Hpos|split; [exact Hperm|]].
  exact (merge_results_order_independent _ _ Hpos Hperm).
Defined.

(** ** The invariant of the running fraction *)

Lemma run_terms_prefix_reduced (start end_ : Z) (j : nat) :
  0 <= start ->
  reduced (snd (run_terms start (state_at start)
                          (firstn j (range start (end_ + 1))))).
Proof.
  intro H. rewrite firstn_range, run_terms_range by assumption. cbn [snd].
  destruct zero_rational as (Hp0 & Hl0 & _).
  destruct (scratch_fold_spec
              (range start (start + Z.of_nat (Nat.min j (Z.to_nat (end_ + 1 - start)))))
              (range_nonneg start _ H) (0, 1) Hp0 Hl0) as (Hp & Hl & _).
  split; assumption.
Qed.

(** C10: the running fraction has a positive denominator and is in lowest
    terms after every pass of the accumulation loop (every prefix of the
    index range, whatever its length [j]) and so is the pair the function
    returns; the same holds after every step of the merge fold over results
    with positive denominators, and for what the fold returns when its
    inputs are results of this kind. *)
Theorem rational_reduced_after_every_step :
  (forall (start end_ : Z) (j : nat) (rs : RecurrenceState),
      0 <= start -> initial_state start = Ret rs ->
      reduced (snd (run_terms start rs (firstn j (range start (end_ + 1)))))) /\
  (forall (start end_ : Z) (r : Z * Z),
      0 <= start -> compute_pi_terms start end_ = Ret r -> reduced r) /\
  (forall (r0 : Z * Z) (rest : list (Z * Z)) (j : nat),
      Forall positive_den (r0 :: rest) ->
      (1 <= j <= List.length rest)%nat ->
      reduced (fold_left merge_step (firstn j rest) r0)) /\
  (forall (results : list (Z * Z)) (r : Z * Z),
      Forall reduced results -> merge_results results = Ret r -> reduced r).
Proof.
  assert (Hloop : forall (start end_ : Z) (j : nat) (rs : RecurrenceState),
             0 <= start -> initial_state start = Ret rs ->
             reduced (snd (run_terms start rs (firstn j (range start (end_ + 1)))))).
  { intros start end_ j rs H Hrs. rewrite initial_state_at in Hrs by assumption.
    injection Hrs as <-. now apply run_terms_prefix_reduced. }
  assert (Hstep : forall (r0 : Z * Z) (rest : list (Z * Z)),
             Forall positive_den (r0 :: rest) -> rest <> [] ->
             reduced (fold_left merge_step rest r0)).
  { intros r0 rest Hall Hne. inversion Hall as [|? ? H0 Hrest]; subst.
    destruct (merge_fold_spec rest Hrest r0 H0) as (Hp & Hl & _).
    split; [exact Hp | exact (Hl Hne)]. }
  split; [exact Hloop|split; [|split]].
  - intros start end_ r H Hr. unfold compute_pi_terms in Hr.
    destruct (initial_state start) as [rs| |] eqn:Hrs; try discriminate Hr.
    cbn [bind] in Hr. injection Hr as <-.
    rewrite <- (firstn_all (range start (end_ + 1))).
    now apply Hloop.
  - intros r0 rest j Hall Hj. apply Hstep.
    + inversion Hall as [|? ? H0 Hrest]; subst. constructor; [assumption|].
      rewrite <- (firstn_skipn j rest) in Hrest.
      apply Forall_app in Hrest. exact (proj1 Hrest).
    + destruct rest; cbn in Hj; [lia|]. destruct j; [lia|]. discriminate.
  - intros results r Hall Hr. destruct results as [|r0 rest]; [discriminate Hr|].
    cbn [merge_results] in Hr. injection Hr as <-.
    destruct rest as [|r1 rest].
    + cbn [fold_left]. now inversion Hall.
    + apply Hstep; [|discriminate].
      eapply Forall_impl; [|exact Hall]. now intros a [Ha _].
Qed.

Lemma rational_reduced_after_every_step_witness :
  reduced (snd (run_terms 0 (mkState 1 1 1 1 13591409)
                          (firstn 2 (range 0 (3 + 1))))) /\
  reduced (1, 6) /\
  reduced (fold_left merge_step (firstn 1 [(1, 3); (1, 6)]) (1, 2)).
Proof.
  destruct rational_reduced_after_every_step as (Hloop & Hret & Hstep & Hmerge).
  split; [|split].
  - apply (Hloop 0 3 2%nat); [lia|reflexivity].
  - apply (Hmerge [(1, 6)] (1, 6)); [|reflexivity].
    repeat constructor.
  - apply (Hstep (1, 2) [(1, 3); (1, 6)] 1%nat); [|cbn; lia].
    repeat constructor.
Defined.

(** ** Long division *)

Lemma str_digit (d : Z) : 0 <= d <= 9 -> str d = [digit_char d].
Proof.
  intro H.
  assert (E : d = 0 \/ d = 1 \/ d = 2 \/ d = 3 \/ d = 4 \/
              d = 5 \/ d = 6 \/ d = 7 \/ d = 8 \/ d = 9) by lia.
  repeat (destruct E as [->|E]; [reflexivity|]).
  subst d. reflexivity.
Qed.

(** The quotient digit of one division step lies in [0..9], for divisors
    of either sign. *)
Lemma step_digit_bounds (den x : Z) :
  den <> 0 -> 0 <= (x mod den) * 10 / den <= 9.
Proof.
  intro H.
  set (r := x mod den).
  pose proof (Z.div_mod (r * 10) den H) as E.
  destruct (Z.lt_total den 0) as [Hneg|[?|Hpos]]; [|contradiction|].
  - pose proof (Z.mod_neg_bound x den Hneg).
    pose proof (Z.mod_neg_bound (r * 10) den Hneg).
    fold r in H0. nia.
  - pose proof (Z.mod_pos_bound x den Hpos).
    pose proof (Z.mod_pos_bound (r * 10) den Hpos).
    fold r in H0. nia.
Qed.

(** The digit produced from the remainder [x mod den] is the last digit of
    the quotient [x * 10 / den]. *)
Lemma step_digit (den x : Z) :
  den <> 0 -> (x mod den) * 10 / den = (x * 10 / den) mod 10.
Proof.
  intro H.
  pose proof (step_digit_bounds den x H) as Hb.
  rewrite (Z.div_mod x den H) at 2.
  replace ((den * (x / den) + x mod den) * 10)
    with ((x mod den) * 10 + (x / den * 10) * den) by ring.
  rewrite Z.div_add by assumption.
  rewrite Z.add_mod, Z.mod_mul, Z.add_0_r, Z.mod_mod by lia.
  symmetry. apply Z.mod_small. lia.
Qed.

Lemma step_remainder (den x : Z) :
  den <> 0 -> ((x mod den) * 10) mod den = (x * 10) mod den.
Proof. intro H. now rewrite Z.mul_mod_idemp_l. Qed.

(** The remainder held after [i] digits. *)
Lemma frac_digit_step (num den : Z) (i : Z) :
  den <> 0 -> 0 <= i ->
  (((num mod den) * 10 ^ i) mod den) * 10 / den = frac_digit num den (i + 1).
Proof.
  intros H Hi. unfold frac_digit.
  rewrite step_digit by assumption.
  rewrite Z.pow_add_r, Z.pow_1_r by lia.
  now rewrite Z.mul_assoc.
Qed.

(** Once a remainder is zero every later digit is zero. *)
Lemma frac_digit_after_exact (num den : Z) (m j : Z) :
  den <> 0 -> 0 <= m < j ->
  ((num mod den) * 10 ^ m) mod den = 0 ->
  frac_digit num den j = 0.
Proof.
  intros H Hmj E. unfold frac_digit.
  apply Z.mod_divide in E; [|assumption]. destruct E as [q E].
  replace j with (m + (j - m - 1) + 1) by lia.
  rewrite !Z.pow_add_r, Z.pow_1_r by lia.
  replace ((num mod den) * (10 ^ m * 10 ^ (j - m - 1) * 10))
    with ((q * 10 ^ (j - m - 1) * 10) * den) by (rewrite <- !Z.mul_assoc, (Z.mul_assoc _ (10 ^ m)), E; ring).
  rewrite Z.div_mul by assumption.
  apply Z.mod_mul. lia.
Qed.

(** The digit strings the loop should have after [m] digits. *)
Lemma division_loop_spec (num den : Z) (count i : nat) :
  den <> 0 ->
  exists m : nat,
    (i <= m <= i + count)%nat /\
    ((m < i + count)%nat -> ((num mod den) * 10 ^ Z.of_nat m) mod den = 0) /\
    division_loop count den (((num mod den) * 10 ^ Z.of_nat i) mod den)
                  (map (fun k => [digit_char (frac_digit num den (Z.of_nat k + 1))])
                       (seq 0 i))
    = map (fun k => [digit_char (frac_digit num den (Z.of_nat k + 1))]) (seq 0 m).
Proof.
  intro H. revert i. induction count as [|count IH]; intro i.
  - exists i. cbn [division_loop]. split; [lia|split; [lia|reflexivity]].
  - cbn [division_loop].
    destruct (Z.eqb_spec (((num mod den) * 10 ^ Z.of_nat i) mod den) 0) as [E|E].
    + exists i. split; [lia|split; [intros _; exact E|reflexivity]].
    + destruct (IH (S i)) as (m & Hm & Hz & Hloop).
      exists m. split; [lia|split; [intro; apply Hz; lia|]].
      rewrite <- Hloop. f_equal.
      * rewrite step_remainder by assumption.
        rewrite Nat2Z.inj_succ, Z.pow_succ_r by lia. f_equal. ring.
      * rewrite seq_S, map_app. cbn [map Nat.add]. do 2 f_equal.
        rewrite frac_digit_step by lia.
        apply str_digit.
        rewrite <- frac_digit_step by lia.
        apply step_digit_bounds. assumption.
Qed.

Lemma concat_singletons {A B : Type} (g : A -> B) (l : list A) :
  List.concat (map (fun k => [g k]) l) = map g l.
Proof.
  induction l as [|a l IH]; [reflexivity|].
  cbn [map List.concat app]. now rewrite IH.
Qed.

Lemma repeat_as_map {A : Type} (g : nat -> A) (x : A) (m n : nat) :
  (forall k, (m <= k < m + n)%nat -> g k = x) ->
  repeat x n = map g (seq m n).
Proof.
  revert m. induction n as [|n IH]; intros m Hg; [reflexivity|].
  cbn [repeat seq map]. rewrite Hg by lia. f_equal.
  apply IH. intros k Hk. apply Hg. lia.
Qed.

(** The returned text, digit by digit. *)
Lemma high_precision_division_form (num den d : Z) :
  den <> 0 -> 0 <= d ->
  exists M : nat,
    d + 1 <= Z.of_nat M <= d + 10 /\
    high_precision_division num den d
    = Ret (map (fun k => digit_char (frac_digit num den (Z.of_nat k + 1)))
               (seq 0 M)).
Proof.
  intros H Hd. unfold high_precision_division, floordiv, pymod.
  destruct (Z.eqb_spec den 0) as [|_]; [contradiction|]. cbn [bind].
  destruct (division_loop_spec num den (Z.to_nat (d + 10)) 0 H)
    as (m & Hm & Hz & Hloop).
  change (map _ (seq 0 0)) with (@nil pystr) in Hloop.
  rewrite Z.pow_0_r, Z.mul_1_r, Z.mod_mod in Hloop by assumption.
  set (n := Z.to_nat (d + 1 - Z.of_nat m)).
  exists (m + n)%nat. split; [lia|]. f_equal.
  rewrite Hloop. unfold pad_digits.
  rewrite length_map, length_seq. fold n.
  rewrite (repeat_as_map (A := pystr)
             (fun k => [digit_char (frac_digit num den (Z.of_nat k + 1))])
             (chars "0") m n).
  - rewrite <- map_app, <- seq_app. apply concat_singletons.
  - intros k Hk.
    assert (E : frac_digit num den (Z.of_nat k + 1) = 0).
    { apply (frac_digit_after_exact num den (Z.of_nat m)); [assumption|lia|].
      apply Hz. lia. }
    rewrite E. reflexivity.
Qed.

(** The digit of the floor-based fraction is the last digit of the floor
    of [numerator * 10^j / denominator]. *)
Lemma frac_digit_floor (num den j : Z) :
  den <> 0 -> 1 <= j -> frac_digit num den j = (num * 10 ^ j / den) mod 10.
Proof.
  intros H Hj. unfold frac_digit.
  rewrite (Z.div_mod num den H) at 2.
  replace ((den * (num / den) + num mod den) * 10 ^ j)
    with ((num mod den) * 10 ^ j + (num / den * 10 ^ j) * den) by ring.
  rewrite Z.div_add by assumption.
  replace j with (j - 1 + 1) at 3 by lia.
  rewrite Z.pow_add_r, Z.pow_1_r, Z.mul_assoc by lia.
  now rewrite Z.mod_add by lia.
Qed.

(** When the quotient is not negative the floor-based digits are the usual
    decimal digits. *)
Lemma frac_digit_decimal (num den j : Z) :
  den <> 0 -> 0 <= num * den -> 1 <= j ->
  frac_digit num den j = decimal_digit num den j.
Proof.
  intros H Hsign Hj. rewrite frac_digit_floor by assumption.
  unfold decimal_digit.
  destruct (Z.lt_total den 0) as [Hneg|[?|Hpos]]; [|contradiction|].
  - assert (num <= 0) by nia.
    rewrite (Z.abs_neq num), (Z.abs_neq den) by lia.
    rewrite Z.mul_opp_l, Z.div_opp_opp by lia. reflexivity.
  - assert (0 <= num) by nia.
    rewrite (Z.abs_eq num), (Z.abs_eq den) by lia. reflexivity.
Qed.

(** C4 (as the code has it): for a non-zero divisor and [d >= 0] the
    function returns a text of at least [d + 1] (and at most [d + 10])
    characters whose [j]-th character is the [j]-th decimal digit of the
    fractional part [numerator / denominator - floor (numerator /
    denominator)], the remainder the loop starts from being [numerator %
    denominator]; these are the usual decimal digits of
    [numerator / denominator] when the quotient is not negative; 1/3 with
    [d = 10] starts with ten 3s and 1/2 with [d = 5] is the digit 5
    followed by zeros up to [d + 1] characters. *)
Theorem high_precision_division_digits :
  (forall num den d : Z,
      den <> 0 -> 0 <= d ->
      exists s : pystr,
        high_precision_division num den d = Ret s /\
        d + 1 <= len s <= d + 10 /\
        forall j : Z, 1 <= j <= len s ->
          nth (Z.to_nat (j - 1)) s "0"%char = digit_char (frac_digit num den j)) /\
  (forall num den d : Z,
      den <> 0 -> 0 <= d -> 0 <= num * den ->
      exists s : pystr,
        high_precision_division num den d = Ret s /\
        forall j : Z, 1 <= j <= len s ->
          nth (Z.to_nat (j - 1)) s "0"%char
          = digit_char (decimal_digit num den j)) /\
  (exists s : pystr,
      high_precision_division 1 3 10 = Ret s /\
      firstn 10 s = chars "3333333333") /\
  high_precision_division 1 2 5 = Ret (chars "500000").
Proof.
  assert (Hfloor : forall num den d : Z,
             den <> 0 -> 0 <= d ->
             exists s : pystr,
               high_precision_division num den d = Ret s /\
               d + 1 <= len s <= d + 10 /\
               forall j : Z, 1 <= j <= len s ->
                 nth (Z.to_nat (j - 1)) s "0"%char
                 = digit_char (frac_digit num den j)).
  { intros num den d H Hd.
    destruct (high_precision_division_form num den d H Hd) as (M & HM & ->).
    eexists. split; [reflexivity|].
    unfold len. rewrite length_map, length_seq. split; [exact HM|].
    intros j Hj.
    rewrite nth_indep with (d' := digit_char (frac_digit num den (Z.of_nat 0 + 1)))
      by (rewrite length_map, length_seq; lia).
    rewrite (map_nth (fun k => digit_char (frac_digit num den (Z.of_nat k + 1)))).
    rewrite seq_nth by lia. do 2 f_equal. lia. }
  split; [exact Hfloor|split; [|split]].
  - intros num den d H Hd Hsign.
    destruct (Hfloor num den d H Hd) as (s & Es & _ & Hdigits).
    exists s. split; [exact Es|].
    intros j Hj. rewrite (Hdigits j Hj).
    f_equal. apply frac_digit_decimal; [assumption|assumption|lia].
  - eexists. split; reflexivity.
  - reflexivity.
Qed.

Lemma high_precision_division_digits_witness :
  3 <> 0 /\ 0 <= 10 /\ 0 <= 1 * 3 /\
  (exists s : pystr,
      high_precision_division 1 3 10 = Ret s /\
      10 + 1 <= len s <= 10 + 10 /\
      forall j : Z, 1 <= j <= len s ->
        nth (Z.to_nat (j - 1)) s "0"%char = digit_char (frac_digit 1 3 j)) /\
  (exists s : pystr,
      high_precision_division 1 3 10 = Ret s /\
      forall j : Z, 1 <= j <= len s ->
        nth (Z.to_nat (j - 1)) s "0"%char = digit_char (decimal_digit 1 3 j)).
Proof.
  split; [lia|split; [lia|split; [lia|split]]].
  - apply (proj1 high_precision_division_digits 1 3 10); lia.
  - apply (proj1 (proj2 high_precision_division_digits) 1 3 10); lia.
Defined.

(** C4 refuted as stated: for -1/4 = -0.25 the function returns "750000",
    the digits of [-0.25 - floor (-0.25) = 0.75], and not the decimal
    digits 2, 5, 0, ... of the quotient. *)
Lemma high_precision_division_negative_quotient :
  high_precision_division (-1) 4 5 = Ret (chars "750000") /\
  ~ (forall num den d : Z,
        den <> 0 -> 0 <= d ->
        exists s : pystr,
          high_precision_division num den d = Ret s /\
          forall j : Z, 1 <= j <= len s ->
            nth (Z.to_nat (j - 1)) s "0"%char
            = digit_char (decimal_digit num den j)).
Proof.
  split; [reflexivity|].
  intro Hall.
  destruct (Hall (-1) 4 5 ltac:(lia) ltac:(lia)) as (s & Es & Hdigits).
  change (high_precision_division (-1) 4 5) with (Ret (chars "750000")) in Es.
  injection Es as <-.
  specialize (Hdigits 1 ltac:(cbn; lia)).
  vm_compute in Hdigits. discriminate Hdigits.
Qed.

(** ** Decimal numerals *)

Lemma digit_of_char_inv (c : ascii) (d : Z) :
  digit_of_char c = Some d -> 0 <= d <= 9 /\ c = digit_char d.
Proof.
  unfold digit_of_char, digit_char.
  destruct (Z.leb_spec 48 (Z.of_nat (nat_of_ascii c))) as [Hlo|]; [|discriminate].
  destruct (Z.leb_spec (Z.of_nat (nat_of_ascii c)) 57) as [Hhi|]; [|discriminate].
  cbn [andb]. intro E. injection E as <-. split; [lia|].
  replace (48 + Z.to_nat (Z.of_nat (nat_of_ascii c) - 48))%nat
    with (nat_of_ascii c) by lia.
  symmetry. apply ascii_nat_embedding.
Qed.

Lemma digit_of_digit_char (d : Z) :
  0 <= d <= 9 -> digit_of_char (digit_char d) = Some d.
Proof.
  intro H.
  assert (E : d = 0 \/ d = 1 \/ d = 2 \/ d = 3 \/ d = 4 \/
              d = 5 \/ d = 6 \/ d = 7 \/ d = 8 \/ d = 9) by lia.
  repeat (destruct E as [->|E]; [reflexivity|]).
  subst d. reflexivity.
Qed.

Lemma len_nonneg (s : pystr) : 0 <= len s.
Proof. unfold len. lia. Qed.

Lemma len_cons (c : ascii) (s : pystr) : len (c :: s) = len s + 1.
Proof. unfold len. cbn [List.length]. lia. Qed.

Lemma len_app (s t : pystr) : len (s ++ t) = len s + len t.
Proof. unfold len. rewrite length_app. lia. Qed.

(** Reading a run of digits: the accumulator is shifted by the length of
    the run and the value of the run is added. *)
Lemma int_digits_value (s : pystr) :
  all_digits s ->
  0 <= digits_value s < 10 ^ len s /\
  forall acc, int_digits s acc = Some (acc * 10 ^ len s + digits_value s).
Proof.
  induction 1 as [|c s Hc _ [IHb IH]].
  - split; [cbn; lia|]. intro acc. cbn. f_equal. lia.
  - destruct (digit_of_char c) as [d|] eqn:Ed; [|contradiction].
    destruct (digit_of_char_inv c d Ed) as [Hd _].
    assert (Hv : digits_value (c :: s) = d * 10 ^ len s + digits_value s).
    { unfold digits_value at 1. cbn [int_digits]. rewrite Ed, IH. f_equal. }
    rewrite len_cons, Z.pow_add_r, Z.pow_1_r by (pose proof (len_nonneg s); lia).
    split; [rewrite Hv; nia|].
    intro acc. cbn [int_digits]. rewrite Ed, IH, Hv. f_equal. ring.
Qed.

Lemma digits_value_cons (c : ascii) (s : pystr) (d : Z) :
  digit_of_char c = Some d -> all_digits s ->
  digits_value (c :: s) = d * 10 ^ len s + digits_value s.
Proof.
  intros Ed Hs. unfold digits_value at 1. cbn [int_digits].
  rewrite Ed, (proj2 (int_digits_value s Hs)). f_equal.
Qed.

Lemma digits_value_app (s t : pystr) :
  all_digits s -> all_digits t ->
  digits_value (s ++ t) = digits_value s * 10 ^ len t + digits_value t.
Proof.
  intros Hs Ht. induction Hs as [|c s Hc Hs IH].
  - cbn [app]. change (digits_value []) with 0. lia.
  - destruct (digit_of_char c) as [d|] eqn:Ed; [|contradiction].
    cbn [app]. rewrite (digits_value_cons c (s ++ t) d Ed)
      by (apply Forall_app; split; assumption).
    rewrite (digits_value_cons c s d Ed Hs), IH, len_app.
    rewrite Z.pow_add_r by apply len_nonneg. ring.
Qed.

Lemma int_of_digits (s : pystr) :
  all_digits s -> s <> [] -> int s = Ret (digits_value s).
Proof.
  intros Hs Hne. unfold int. destruct s as [|c s]; [contradiction|].
  rewrite (proj2 (int_digits_value _ Hs)). f_equal.
Qed.

Lemma all_digits_zeros (n : nat) : all_digits (repeat "0"%char n).
Proof.
  induction n as [|n IH]; [constructor|].
  cbn [repeat]. constructor; [discriminate|exact IH].
Qed.

Lemma digits_value_zeros (n : nat) : digits_value (repeat "0"%char n) = 0.
Proof.
  induction n as [|n IH]; [reflexivity|].
  cbn [repeat].
  rewrite (digits_value_cons "0"%char _ 0 eq_refl (all_digits_zeros n)), IH.
  lia.
Qed.

(** The digits of a non-negative number: they read back as the number and
    there is no leading zero. *)
Lemma str_digits_spec (fuel : nat) (n : Z) (acc : pystr) :
  (0 < fuel)%nat -> 0 <= n < 2 ^ Z.of_nat fuel ->
  exists ds : pystr,
    str_digits fuel n acc = ds ++ acc /\
    all_digits ds /\ ds <> [] /\
    digits_value ds = n /\
    (0 < n -> 10 ^ (len ds - 1) <= n).
Proof.
  revert n acc. induction fuel as [|fuel IH]; intros n acc Hfuel Hn.
  - lia.
  - cbn [str_digits].
    assert (Hd : 0 <= n mod 10 <= 9) by (pose proof (Z.mod_pos_bound n 10); lia).
    pose proof (digit_of_digit_char _ Hd) as Ed.
    destruct (Z.ltb_spec n 10) as [Hlt|Hge].
    + exists [digit_char (n mod 10)]. rewrite Z.mod_small in * by lia.
      split; [reflexivity|]. split; [repeat constructor; congruence|].
      split; [discriminate|]. split.
      * rewrite (digits_value_cons _ [] n Ed) by constructor.
        change (digits_value []) with 0. change (len []) with 0. lia.
      * intros Hpos. change (len [digit_char n] - 1) with 0. lia.
    + assert (Hq : 0 <= n / 10 < 2 ^ Z.of_nat fuel).
      { rewrite Nat2Z.inj_succ, Z.pow_succ_r in Hn by lia.
        split; [apply Z.div_pos; lia|].
        apply Z.div_lt_upper_bound; lia. }
      assert (Hq1 : 0 < n / 10) by (apply Z.div_str_pos; lia).
      assert (Hf : (0 < fuel)%nat).
      { destruct fuel; [cbn in Hq; lia|lia]. }
      destruct (IH (n / 10) (digit_char (n mod 10) :: acc) Hf Hq)
        as (ds & Hds & Hall & Hne & Hval & Hlow).
      exists (ds ++ [digit_char (n mod 10)]).
      assert (Hlast : all_digits [digit_char (n mod 10)])
        by (repeat constructor; congruence).
      split; [rewrite Hds, <- app_assoc; reflexivity|].
      split; [apply Forall_app; split; assumption|].
      split; [destruct ds; discriminate|].
      split.
      * rewrite digits_value_app by assumption.
        rewrite (digits_value_cons _ [] _ Ed) by constructor.
        change (digits_value []) with 0. change (len []) with 0.
        change (len [digit_char (n mod 10)]) with 1.
        rewrite Hval. pose proof (Z.div_mod n 10). lia.
      * intros _. rewrite len_app.
        change (len [digit_char (n mod 10)]) with 1.
        replace (len ds + 1 - 1) with (Z.succ (len ds - 1)) by lia.
        assert (0 < len ds).
        { destruct ds; [contradiction|]. rewrite len_cons.
          pose proof (len_nonneg ds). lia. }
        rewrite Z.pow_succ_r by lia.
        specialize (Hlow Hq1).
        pose proof (Z.div_mod n 10). lia.
Qed.

Lemma str_nonneg_spec (n : Z) :
  0 <= n ->
  all_digits (str n) /\ str n <> [] /\ digits_value (str n) = n /\
  (0 < n -> 10 ^ (len (str n) - 1) <= n).
Proof.
  intro H. unfold str.
  destruct (Z.ltb_spec n 0) as [|_]; [lia|].
  unfold str_nonneg.
  destruct (str_digits_spec (S (Z.to_nat (Z.log2 n))) n []) as (ds & E & Hds).
  - lia.
  - split; [assumption|].
    rewrite Nat2Z.inj_succ, Z2Nat.id by apply Z.log2_nonneg.
    destruct (Z.eq_dec n 0) as [->|]; [reflexivity|].
    apply Z.log2_spec. lia.
  - rewrite E, app_nil_r. exact Hds.
Qed.

(** ** Rounding *)

Lemma zfill_digits (s : pystr) (width : Z) :
  all_digits s -> s <> [] ->
  zfill s width = repeat "0"%char (Z.to_nat (width - len s)) ++ s.
Proof.
  intros Hs Hne. destruct s as [|c s]; [contradiction|].
  unfold zfill. inversion Hs as [|? ? Hc _]; subst.
  destruct (Ascii.eqb_spec c "+") as [->|_]; [exfalso; apply Hc; reflexivity|].
  destruct (Ascii.eqb_spec c "-") as [->|_]; [exfalso; apply Hc; reflexivity|].
  reflexivity.
Qed.

(** A text of digits longer than [p] splits into its first [p] digits, the
    rounding digit and the rest. *)
Lemma split_at_round_digit (s : pystr) (p : Z) :
  all_digits s -> 0 <= p < len s ->
  exists (c : ascii) (d : Z),
    firstn 1 (skipn (Z.to_nat p) s) = [c] /\
    digit_of_char c = Some d /\ 0 <= d <= 9 /\
    all_digits (firstn (Z.to_nat p) s) /\
    len (firstn (Z.to_nat p) s) = p.
Proof.
  intros Hs Hp. unfold len in *.
  pose proof (firstn_skipn (Z.to_nat p) s) as E.
  pose proof (length_skipn (Z.to_nat p) s) as Hlen.
  rewrite <- E in Hs. apply Forall_app in Hs. destruct Hs as [Hpre Hpost].
  destruct (skipn (Z.to_nat p) s) as [|c rest]; [cbn in Hlen; lia|].
  inversion Hpost as [|? ? Hc _]; subst.
  destruct (digit_of_char c) as [d|] eqn:Ed; [|contradiction].
  exists c, d. split; [reflexivity|]. split; [assumption|].
  split; [apply (digit_of_char_inv c d Ed)|].
  split; [assumption|]. rewrite length_firstn. lia.
Qed.

Lemma pow10_len_bound (ds : pystr) (v p : Z) :
  0 <= p -> 0 < v < 10 ^ p -> 10 ^ (len ds - 1) <= v -> len ds <= p.
Proof.
  intros Hp Hv Hlow.
  destruct (Z.le_gt_cases (len ds) p) as [|Hgt]; [assumption|exfalso].
  assert (10 ^ p <= 10 ^ (len ds - 1)) by (apply Z.pow_le_mono_r; lia).
  lia.
Qed.

(** C5 (as the code has it): on a text of digits longer than [p >= 1] the
    rounding step returns exactly [p] digits; they write the rounded
    numeral (first [p] digits, plus one when the next digit is 5 or more,
    carries propagated) reduced modulo [10^p]: a carry out of the leading
    digit is dropped and only the text is returned. *)
Theorem round_decimal_drops_carry (s : pystr) (p : Z) :
  all_digits s -> 1 <= p < len s ->
  exists out : pystr,
    round_decimal s p = Ret out /\
    len out = p /\ all_digits out /\
    digits_value out = rounded_value s p mod 10 ^ p.
Proof.
  intros Hs Hp.
  assert (Hpow : 0 < 10 ^ p) by (apply Z.pow_pos_nonneg; lia).
  destruct (split_at_round_digit s p Hs ltac:(lia))
    as (c & d & Ec & Ed & Hd & Hpre & Hlen).
  pose proof (int_digits_value _ Hpre) as [Hbound _]. rewrite Hlen in Hbound.
  remember (firstn (Z.to_nat p) s) as pre eqn:Epre.
  remember (digits_value pre) as v eqn:Ev.
  assert (Hc1 : all_digits [c]) by (repeat constructor; congruence).
  assert (Hdv : digits_value [c] = d).
  { rewrite (digits_value_cons c [] d Ed) by constructor.
    change (digits_value []) with 0. change (len []) with 0. lia. }
  assert (Hpre_ne : pre <> []).
  { intro E. rewrite E in Hlen. change (len []) with 0 in Hlen. lia. }
  unfold round_decimal, rounded_value. rewrite <- Epre, <- Ev.
  destruct (Z.gtb_spec (len s) p) as [_|]; [|lia].
  rewrite Ec, (int_of_digits [c] Hc1) by discriminate.
  rewrite Hdv. cbn [bind].
  destruct (Z.geb_spec d 5) as [Hup|Hdown].
  - rewrite (int_of_digits pre Hpre Hpre_ne). cbn [bind]. rewrite <- Ev.
    destruct (str_nonneg_spec (v + 1) ltac:(lia)) as (Hall & Hne & Hval & Hlow).
    specialize (Hlow ltac:(lia)).
    rewrite zfill_digits by assumption.
    remember (str (v + 1)) as ds eqn:Eds0.
    pose proof (int_digits_value ds Hall) as [Hdsb _]. rewrite Hval in Hdsb.
    destruct (Z.eq_dec (v + 1) (10 ^ p)) as [Ecarry|Hno].
    + (* the numeral overflows: [ds] is 1 followed by [p] zeros *)
      assert (Hlends : len ds = p + 1).
      { assert (len ds - 1 <= p).
        { apply Z.pow_le_mono_r_iff with 10; lia. }
        assert (p < len ds).
        { apply Z.pow_lt_mono_r_iff with 10; [lia|apply len_nonneg|lia]. }
        lia. }
      replace (Z.to_nat (p - len ds)) with 0%nat by lia.
      cbn [repeat app].
      destruct (Z.gtb_spec (len ds) p) as [_|]; [|lia].
      destruct ds as [|c0 tl] eqn:Eds; [contradiction|].
      inversion Hall as [|? ? Hc0 Htl]; subst.
      destruct (digit_of_char c0) as [d0|] eqn:Ed0; [|contradiction].
      destruct (digit_of_char_inv c0 d0 Ed0) as [Hd0 _].
      rewrite len_cons in Hlends.
      pose proof (int_digits_value tl Htl) as [Htlb _].
      rewrite (digits_value_cons c0 tl d0 Ed0 Htl) in Hval.
      assert (Htl_len : len tl = p) by lia.
      rewrite Htl_len in Htlb, Hval.
      exists tl. cbn [skipn].
      split; [reflexivity|]. split; [assumption|]. split; [assumption|].
      rewrite Ecarry, Z.mod_same by lia.
      rewrite Ecarry in Hval.
      assert (d0 = 1) by nia. subst d0. lia.
    + assert (Hle : len ds <= p) by (apply (pow10_len_bound ds (v + 1)); lia).
      exists (repeat "0"%char (Z.to_nat (p - len ds)) ++ ds).
      assert (Hlen' : len (repeat "0"%char (Z.to_nat (p - len ds)) ++ ds) = p).
      { rewrite len_app. unfold len at 1. rewrite repeat_length. lia. }
      rewrite Hlen'.
      destruct (Z.gtb_spec p p) as [|_]; [lia|].
      split; [reflexivity|]. split; [reflexivity|].
      split; [apply Forall_app; split; [apply all_digits_zeros|assumption]|].
      rewrite digits_value_app by (try apply all_digits_zeros; assumption).
      rewrite digits_value_zeros, Hval, Z.mod_small by lia. lia.
  - exists pre. split; [reflexivity|]. split; [assumption|].
    split; [assumption|]. rewrite <- Ev, Z.add_0_r, Z.mod_small by lia.
    reflexivity.
Qed.

Lemma round_decimal_drops_carry_witness :
  all_digits (chars "999995") /\ 1 <= 5 < len (chars "999995") /\
  exists out : pystr,
    round_decimal (chars "999995") 5 = Ret out /\
    len out = 5 /\ all_digits out /\
    digits_value out = rounded_value (chars "999995") 5 mod 10 ^ 5.
Proof.
  assert (H : all_digits (chars "999995")) by (repeat constructor; discriminate).
  split; [exact H|]. split; [cbn; lia|].
  apply (round_decimal_drops_carry (chars "999995") 5 H). cbn. lia.
Defined.

(** C5 refuted as stated: "999995" rounded to 5 digits overflows and
    "000001" does not, yet the step returns the same text "00000" for
    both, so nothing it returns can tell the caller of the carry. *)
Lemma round_decimal_no_carry_signal :
  round_decimal (chars "999995") 5 = Ret (chars "00000") /\
  ~ (exists signal : outcome pystr -> bool,
        forall (s : pystr) (p : Z),
          all_digits s -> 1 <= p < len s ->
          signal (round_decimal s p) = carry_out s p).
Proof.
  split; [reflexivity|].
  intros [signal Hsig].
  assert (H1 : all_digits (chars "999995")) by (repeat constructor; discriminate).
  assert (H2 : all_digits (chars "000001")) by (repeat constructor; discriminate).
  pose proof (Hsig (chars "999995") 5 H1 ltac:(cbn; lia)) as E1.
  pose proof (Hsig (chars "000001") 5 H2 ltac:(cbn; lia)) as E2.
  change (round_decimal (chars "999995") 5) with (Ret (chars "00000")) in E1.
  change (round_decimal (chars "000001") 5) with (Ret (chars "00000")) in E2.
  change (carry_out (chars "999995") 5) with true in E1.
  change (carry_out (chars "000001") 5) with false in E2.
  congruence.
Qed.

(** * Further properties of the code *)

(** ** The number of terms *)

(** X1: [estimate_terms_needed] never asks for fewer than 20 or more than
    100000 terms and asks for no fewer terms when more digits are wanted. *)
Theorem estimate_terms_needed_monotone (p q : Z) :
  p <= q ->
  estimate_terms_needed p <= estimate_terms_needed q /\
  20 <= estimate_terms_needed p <= 100000.
Proof.
  intro H. unfold estimate_terms_needed.
  assert (p / 14 <= q / 14) by (apply Z.div_le_mono; lia).
  lia.
Qed.

Lemma estimate_terms_needed_monotone_witness :
  20 <= 1000 /\
  estimate_terms_needed 20 <= estimate_terms_needed 1000 /\
  20 <= estimate_terms_needed 20 <= 100000.
Proof.
  split; [lia|]. apply (estimate_terms_needed_monotone 20 1000). lia.
Defined.

(** ** The ranges handed to the workers *)

Lemma partition_ranges_value (T W : Z) :
  W <> 0 ->
  partition_ranges T W
  = Ret (map (fun i => (i * ((T + W - 1) / W),
                        Z.min ((i + 1) * ((T + W - 1) / W) - 1) T))
             (range 0 W)).
Proof.
  intro H. unfold partition_ranges, floordiv.
  destruct (Z.eqb_spec W 0) as [|_]; [contradiction|]. reflexivity.
Qed.

Lemma length_range (a b : Z) : List.length (range a b) = Z.to_nat (b - a).
Proof. unfold range. now rewrite length_map, length_seq. Qed.

Lemma nth_range (a b : Z) (i : nat) (d : Z) :
  (i < Z.to_nat (b - a))%nat -> nth i (range a b) d = a + Z.of_nat i.
Proof.
  intro H. unfold range.
  rewrite nth_indep with (d' := a + Z.of_nat 0)
    by (rewrite length_map, length_seq; exact H).
  rewrite (map_nth (fun i => a + Z.of_nat i)), seq_nth by exact H.
  reflexivity.
Qed.

(** X2: for [1 <= W <= T] the function makes [W] ranges; every index below
    [T] is in one of them, no index outside [0 .. T] is, and [T] itself is
    in one exactly when [W] does not divide [T]. *)
Theorem partition_ranges_coverage (T W : Z) :
  1 <= W <= T ->
  exists rs : list (Z * Z),
    partition_ranges T W = Ret rs /\
    Z.of_nat (List.length rs) = W /\
    forall k : Z,
      (exists r, In r rs /\ covers r k) <->
      (0 <= k < T \/ (k = T /\ T mod W <> 0)).
Proof.
  intro H.
  pose proof (partition_ranges_last_index T W H) as Hlast.
  destruct (chunk_size_bounds T W H) as [Hcs HT].
  destruct (partition_ranges_cover T W 0 H) as (rs & Hrs & _).
  exists rs. split; [exact Hrs|]. split.
  - rewrite partition_ranges_value in Hrs by lia. injection Hrs as <-.
    rewrite length_map, length_range. lia.
  - intro k. destruct (partition_ranges_cover T W k H) as (rs' & Hrs' & Hk).
    rewrite Hrs in Hrs'. injection Hrs' as <-.
    rewrite Hk. lia.
Qed.

Lemma partition_ranges_coverage_witness :
  1 <= 4 <= 10 /\
  exists rs : list (Z * Z),
    partition_ranges 10 4 = Ret rs /\
    Z.of_nat (List.length rs) = 4 /\
    forall k : Z,
      (exists r, In r rs /\ covers r k) <->
      (0 <= k < 10 \/ (k = 10 /\ 10 mod 4 <> 0)).
Proof.
  split; [lia|]. apply (partition_ranges_coverage 10 4). lia.
Defined.

(** X3: two different ranges of the list never contain the same index. *)
Theorem partition_ranges_no_overlap (T W : Z) (rs : list (Z * Z))
        (i j : nat) (k : Z) :
  1 <= W <= T ->
  partition_ranges T W = Ret rs ->
  (i < List.length rs)%nat -> (j < List.length rs)%nat ->
  covers (nth i rs (0, 0)) k -> covers (nth j rs (0, 0)) k ->
  i = j.
Proof.
  intros H Hrs Hi Hj Hci Hcj.
  rewrite partition_ranges_value in Hrs by lia. injection Hrs as <-.
  rewrite length_map, length_range in Hi, Hj.
  set (f := fun i : Z => (i * ((T + W - 1) / W),
                          Z.min ((i + 1) * ((T + W - 1) / W) - 1) T)) in *.
  rewrite nth_indep with (d' := f 0) in Hci
    by (rewrite length_map, length_range; exact Hi).
  rewrite nth_indep with (d' := f 0) in Hcj
    by (rewrite length_map, length_range; exact Hj).
  rewrite (map_nth f), nth_range in Hci, Hcj by assumption.
  apply Nat2Z.inj.
  pose proof (partition_ranges_disjoint T W (0 + Z.of_nat i) (0 + Z.of_nat j) k H
                Hci Hcj).
  lia.
Qed.

Lemma partition_ranges_no_overlap_witness :
  1 <= 4 <= 10 /\
  partition_ranges 10 4 = Ret [(0, 2); (3, 5); (6, 8); (9, 10)] /\
  (1 < List.length [(0, 2); (3, 5); (6, 8); (9, 10)])%nat /\
  covers (nth 1 [(0, 2); (3, 5); (6, 8); (9, 10)] (0, 0)) 4 /\
  1%nat = 1%nat.
Proof.
  assert (Hc : covers (nth 1 [(0, 2); (3, 5); (6, 8); (9, 10)] (0, 0)) 4)
    by (unfold covers; cbn; lia).
  assert (Hl : (1 < List.length [(0, 2); (3, 5); (6, 8); (9, 10)])%nat)
    by (cbn; lia).
  split; [lia|]. split; [reflexivity|]. split; [exact Hl|]. split; [exact Hc|].
  exact (partition_ranges_no_overlap 10 4 _ 1 1 4 ltac:(lia) eq_refl Hl Hl Hc Hc).
Defined.

(** ** Errors and edge cases of [compute_pi_terms] *)

(** X4: a negative [start] makes [math.factorial] fail: the call raises
    [ValueError] whatever [end] is. *)
Theorem compute_pi_terms_negative_start (start end_ : Z) :
  start < 0 -> compute_pi_terms start end_ = Raise ValueError.
Proof.
  intro H. unfold compute_pi_terms, initial_state, factorial.
  destruct (Z.eqb_spec start 0) as [|_]; [lia|].
  destruct (Z.ltb_spec (6 * start) 0) as [_|]; [reflexivity|lia].
Qed.

Lemma compute_pi_terms_negative_start_witness :
  -1 < 0 /\ compute_pi_terms (-1) 5 = Raise ValueError.
Proof.
  split; [lia|]. apply (compute_pi_terms_negative_start (-1) 5). lia.
Defined.

(** ** The square root the program asks for *)

(** A residue that no square takes modulo 259, checked on all classes. *)
Lemma not_a_square_mod_259 (v m : Z) :
  forallb (fun t => negb ((t * t) mod 259 =? v)) (range 0 259) = true ->
  (m * m) mod 259 <> v.
Proof.
  intros Hall E.
  rewrite forallb_forall in Hall.
  specialize (Hall (m mod 259)).
  rewrite <- Z.mul_mod, E, Z.eqb_refl in Hall by lia.
  assert (In (m mod 259) (range 0 259)).
  { apply in_range. pose proof (Z.mod_pos_bound m 259). lia. }
  specialize (Hall H). discriminate.
Qed.

(** [100^3 = 1] modulo [259 = 7 * 37], so only [p mod 3] matters. *)
Lemma pow_100_mod_259 (p : Z) :
  0 <= p -> 100 ^ p mod 259 = 100 ^ (p mod 3) mod 259.
Proof.
  intro H.
  rewrite (Z.div_mod p 3) at 1 by lia.
  pose proof (Z.mod_pos_bound p 3 ltac:(lia)).
  assert (0 <= p / 3) by (apply Z.div_pos; lia).
  rewrite Z.pow_add_r, Z.pow_mul_r by lia.
  rewrite Z.mul_mod, <- Z.mod_pow_l by lia.
  change (100 ^ 3 mod 259) with 1.
  rewrite Z.pow_1_l, (Z.mod_small 1 259), Z.mul_1_l, Z.mod_mod by lia.
  reflexivity.
Qed.

(** The number after [640320 * 10^(2p)] is never a square: modulo 7 when
    [p mod 3] is 0 or 1, modulo 37 when it is 2. *)
Lemma scaled_640320_not_square_minus_one (p m : Z) :
  0 <= p -> 640320 * 10 ^ (2 * p) + 1 <> m * m.
Proof.
  intros Hp E.
  assert (Emod : (640320 * 10 ^ (2 * p) + 1) mod 259 = (m * m) mod 259)
    by (now rewrite E).
  rewrite Z.pow_mul_r in Emod by lia. change (10 ^ 2) with 100 in Emod.
  rewrite Z.add_mod, Z.mul_mod, pow_100_mod_259 in Emod by lia.
  pose proof (Z.mod_pos_bound p 3 ltac:(lia)) as Hr.
  assert (Hcase : p mod 3 = 0 \/ p mod 3 = 1 \/ p mod 3 = 2) by lia.
  symmetry in Emod. revert Emod.
  destruct Hcase as [-> | [-> | ->]];
    apply not_a_square_mod_259; vm_compute; reflexivity.
Qed.

(** The same fact in the form the loop needs. *)
Lemma scaled_640320_stops (p : Z) :
  0 <= p ->
  640320 * 10 ^ (2 * p) + 1
  <> (Z.sqrt (640320 * 10 ^ (2 * p)) + 1) * (Z.sqrt (640320 * 10 ^ (2 * p)) + 1).
Proof. intro H. now apply scaled_640320_not_square_minus_one. Qed.

(** X5: for every [n >= 1] and [p >= 0] such that the number after
    [n * 10^(2p)] is not a square, [high_precision_sqrt(n, p)] returns,
    once the loops are given enough iterations, the integer [x] with
    [x^2 <= n * 10^(2p) < (x + 1)^2]. *)
Theorem high_precision_sqrt_floor (n p : Z) :
  1 <= n -> 0 <= p ->
  (forall m : Z, n * 10 ^ (2 * p) + 1 <> m * m) ->
  exists (fuel0 : nat) (x : Z),
    (forall fuel : nat, (fuel0 <= fuel)%nat ->
       high_precision_sqrt fuel n p = Ret x) /\
    x * x <= n * 10 ^ (2 * p) < (x + 1) * (x + 1).
Proof.
  intros Hn Hp Hns.
  destruct (high_precision_sqrt_positive n p Hn Hp) as [Hret _].
  destruct (Hret (Hns _)) as [fuel0 Hf].
  exists fuel0, (Z.sqrt (n * 10 ^ (2 * p))). split; [exact Hf|].
  assert (0 < 10 ^ (2 * p)) by (apply Z.pow_pos_nonneg; lia).
  pose proof (Z.sqrt_spec (n * 10 ^ (2 * p)) ltac:(nia)) as Hs.
  cbv zeta in Hs. lia.
Qed.

Lemma high_precision_sqrt_floor_witness :
  1 <= 2 /\ 0 <= 0 /\
  exists (fuel0 : nat) (x : Z),
    (forall fuel : nat, (fuel0 <= fuel)%nat ->
       high_precision_sqrt fuel 2 0 = Ret x) /\
    x * x <= 2 * 10 ^ (2 * 0) < (x + 1) * (x + 1).
Proof.
  split; [lia|]. split; [lia|].
  apply (high_precision_sqrt_floor 2 0); try lia.
  intros m E. change (2 * 10 ^ (2 * 0) + 1) with 3 in E.
  assert (Hm : Z.abs m * Z.abs m = 3) by lia.
  assert (Z.abs m <= 1 \/ 2 <= Z.abs m) as [|] by lia; nia.
Defined.

(** X6: when the number after [n * 10^(2p)] is a square, the call never
    returns: the second loop uses up every bound on its iterations. *)
Theorem high_precision_sqrt_loops_before_square (n p m : Z) (fuel : nat) :
  1 <= n -> 0 <= p ->
  n * 10 ^ (2 * p) + 1 = m * m ->
  high_precision_sqrt fuel n p = OutOfFuel.
Proof.
  intros Hn Hp E.
  destruct (high_precision_sqrt_positive n p Hn Hp) as [_ Hloop].
  apply Hloop.
  assert (HN : 1 <= n * 10 ^ (2 * p)).
  { assert (0 < 10 ^ (2 * p)) by (apply Z.pow_pos_nonneg; lia). nia. }
  assert (Es : Z.sqrt (n * 10 ^ (2 * p)) = Z.abs m - 1).
  { apply Z.sqrt_unique. nia. }
  rewrite Es. nia.
Qed.

Lemma high_precision_sqrt_loops_before_square_witness :
  1 <= 24 /\ 0 <= 1 /\ 24 * 10 ^ (2 * 1) + 1 = 49 * 49 /\
  high_precision_sqrt 1000 24 1 = OutOfFuel.
Proof.
  split; [lia|]. split; [lia|]. split; [reflexivity|].
  apply (high_precision_sqrt_loops_before_square 24 1 49 1000); [lia|lia|reflexivity].
Defined.

(** The call of line 266, for any precision. *)
Lemma high_precision_sqrt_640320 (p : Z) :
  0 <= p ->
  exists fuel0 : nat,
    forall fuel : nat, (fuel0 <= fuel)%nat ->
      high_precision_sqrt fuel 640320 p = Ret (Z.sqrt (640320 * 10 ^ (2 * p))).
Proof.
  intro Hp.
  destruct (high_precision_sqrt_positive 640320 p ltac:(lia) Hp) as [Hret _].
  apply Hret. now apply scaled_640320_stops.
Qed.

(** X7: the square root the program takes, [high_precision_sqrt(640320, p)],
    returns for every [p >= 0] and its result [x] satisfies
    [x^2 <= 640320 * 10^(2p) < (x + 1)^2]: the number after
    [640320 * 10^(2p)] is never a square. *)
Theorem high_precision_sqrt_640320_floor (p : Z) :
  0 <= p ->
  exists (fuel0 : nat) (x : Z),
    (forall fuel : nat, (fuel0 <= fuel)%nat ->
       high_precision_sqrt fuel 640320 p = Ret x) /\
    x * x <= 640320 * 10 ^ (2 * p) < (x + 1) * (x + 1).
Proof.
  intro Hp. destruct (high_precision_sqrt_640320 p Hp) as [fuel0 Hf].
  exists fuel0, (Z.sqrt (640320 * 10 ^ (2 * p))). split; [exact Hf|].
  assert (0 < 10 ^ (2 * p)) by (apply Z.pow_pos_nonneg; lia).
  pose proof (Z.sqrt_spec (640320 * 10 ^ (2 * p)) ltac:(nia)) as Hs.
  cbv zeta in Hs. lia.
Qed.

Lemma high_precision_sqrt_640320_floor_witness :
  0 <= 40 /\
  exists (fuel0 : nat) (x : Z),
    (forall fuel : nat, (fuel0 <= fuel)%nat ->
       high_precision_sqrt fuel 640320 40 = Ret x) /\
    x * x <= 640320 * 10 ^ (2 * 40) < (x + 1) * (x + 1).
Proof.
  split; [lia|]. apply (high_precision_sqrt_640320_floor 40). lia.
Defined.

(** ** The digits of the long division as a number *)

Lemma frac_digit_bounds (num den j : Z) : 0 <= frac_digit num den j <= 9.
Proof.
  unfold frac_digit.
  pose proof (Z.mod_pos_bound ((num mod den) * 10 ^ j / den) 10). lia.
Qed.

(** The first [m] digits read as a number are the floor of the fractional
    part shifted by [m] places. *)
Lemma frac_digits_value (num den : Z) (m : nat) :
  den <> 0 ->
  all_digits (map (fun k => digit_char (frac_digit num den (Z.of_nat k + 1)))
                  (seq 0 m)) /\
  digits_value (map (fun k => digit_char (frac_digit num den (Z.of_nat k + 1)))
                    (seq 0 m))
  = (num mod den) * 10 ^ Z.of_nat m / den.
Proof.
  intro H. induction m as [|m [IHa IHv]].
  - split; [constructor|]. cbn [seq map]. change (digits_value []) with 0.
    rewrite Z.pow_0_r, Z.mul_1_r.
    symmetry. destruct (Z.lt_total den 0) as [Hneg|[?|Hpos]]; [|contradiction|].
    + pose proof (Z.mod_neg_bound num den Hneg).
      destruct (Z.eq_dec (num mod den) 0) as [->|]; [reflexivity|].
      apply Z.div_small_iff; [assumption|]. right. lia.
    + apply Z.div_small. apply Z.mod_pos_bound. assumption.
  - pose proof (frac_digit_bounds num den (Z.of_nat m + 1)) as Hb.
    pose proof (digit_of_digit_char _ Hb) as Ed.
    assert (Hlast : all_digits [digit_char (frac_digit num den (Z.of_nat m + 1))])
      by (repeat constructor; congruence).
    rewrite seq_S, map_app. cbn [map Nat.add]. split.
    + apply Forall_app. split; assumption.
    + rewrite digits_value_app by assumption.
      rewrite (digits_value_cons _ [] _ Ed) by constructor.
      change (digits_value []) with 0. change (len []) with 0.
      change (len [digit_char (frac_digit num den (Z.of_nat m + 1))]) with 1.
      rewrite IHv. unfold frac_digit.
      rewrite Nat2Z.inj_succ, <- Z.add_1_r.
      set (a := (num mod den) * 10 ^ (Z.of_nat m + 1) / den).
      assert (Ea : (num mod den) * 10 ^ Z.of_nat m / den = a / 10).
      { subst a. rewrite Z.div_div by lia.
        rewrite Z.pow_add_r, Z.pow_1_r, Z.mul_assoc by lia.
        rewrite Z.div_mul_cancel_r by lia. reflexivity. }
      rewrite Ea. pose proof (Z.div_mod a 10). lia.
Qed.

(** X8: for a non-zero divisor and [d >= 0] the text returned is made of
    digit characters only, and its first [m] characters, read as a number,
    are the floor of [frac * 10^m], where [frac] is the fractional part
    [(numerator mod denominator) / denominator]. *)
Theorem high_precision_division_value (num den d : Z) :
  den <> 0 -> 0 <= d ->
  exists s : pystr,
    high_precision_division num den d = Ret s /\
    all_digits s /\
    forall m : Z, 0 <= m <= len s ->
      digits_value (firstn (Z.to_nat m) s) = (num mod den) * 10 ^ m / den.
Proof.
  intros H Hd.
  destruct (high_precision_division_form num den d H Hd) as (M & HM & ->).
  eexists. split; [reflexivity|].
  split; [apply (frac_digits_value num den M H)|].
  intros m Hm. unfold len in Hm. rewrite length_map, length_seq in Hm.
  rewrite firstn_map, firstn_seq_min.
  replace (Nat.min (Z.to_nat m) M) with (Z.to_nat m) by lia.
  rewrite (proj2 (frac_digits_value num den (Z.to_nat m) H)).
  now rewrite Z2Nat.id by lia.
Qed.

Lemma high_precision_division_value_witness :
  7 <> 0 /\ 0 <= 5 /\
  exists s : pystr,
    high_precision_division 22 7 5 = Ret s /\
    all_digits s /\
    forall m : Z, 0 <= m <= len s ->
      digits_value (firstn (Z.to_nat m) s) = (22 mod 7) * 10 ^ m / 7.
Proof.
  split; [lia|]. split; [lia|].
  apply (high_precision_division_value 22 7 5); lia.
Defined.



(** ** The rounding step, case by case *)

Lemma zeros_of_value_zero (s : pystr) :
  all_digits s -> digits_value s = 0 -> s = repeat "0"%char (List.length s).
Proof.
  induction 1 as [|c s Hc Hs IH]; intro E; [reflexivity|].
  destruct (digit_of_char c) as [d|] eqn:Ed; [|contradiction].
  destruct (digit_of_char_inv c d Ed) as [Hd Ec].
  rewrite (digits_value_cons c s d Ed Hs) in E.
  pose proof (int_digits_value s Hs) as [Hb _].
  assert (0 < 10 ^ len s) by (apply Z.pow_pos_nonneg; [lia|apply len_nonneg]).
  assert (d = 0) by nia. subst d.
  cbn [List.length repeat]. rewrite <- IH by lia. now rewrite Ec.
Qed.

(** A positive numeral below [10^p], padded to [p] places. *)
Lemma zfill_str_fits (v p : Z) :
  0 <= p -> 0 < v < 10 ^ p ->
  len (zfill (str v) p) = p /\
  all_digits (zfill (str v) p) /\
  digits_value (zfill (str v) p) = v.
Proof.
  intros Hp Hv.
  destruct (str_nonneg_spec v ltac:(lia)) as (Hall & Hne & Hval & Hlow).
  specialize (Hlow ltac:(lia)).
  pose proof (pow10_len_bound (str v) v p Hp Hv Hlow) as Hle.
  rewrite zfill_digits by assumption.
  split; [|split].
  - rewrite len_app. unfold len at 1. rewrite repeat_length.
    pose proof (len_nonneg (str v)). lia.
  - apply Forall_app. split; [apply all_digits_zeros|assumption].
  - rewrite digits_value_app by (try apply all_digits_zeros; assumption).
    rewrite digits_value_zeros. lia.
Qed.

(** The numeral of [10^p] is one character followed by [p] zeros. *)
Lemma zfill_str_pow10 (p : Z) :
  0 <= p ->
  len (zfill (str (10 ^ p)) p) = p + 1 /\
  skipn 1 (zfill (str (10 ^ p)) p) = repeat "0"%char (Z.to_nat p).
Proof.
  intro Hp.
  assert (Hpow : 0 < 10 ^ p) by (apply Z.pow_pos_nonneg; lia).
  destruct (str_nonneg_spec (10 ^ p) ltac:(lia)) as (Hall & Hne & Hval & Hlow).
  specialize (Hlow Hpow).
  pose proof (int_digits_value _ Hall) as [Hb _]. rewrite Hval in Hb.
  pose proof (len_nonneg (str (10 ^ p))) as Hl0.
  assert (Hlen : len (str (10 ^ p)) = p + 1).
  { assert (len (str (10 ^ p)) - 1 <= p)
      by (apply Z.pow_le_mono_r_iff with 10; lia).
    assert (p < len (str (10 ^ p)))
      by (apply Z.pow_lt_mono_r_iff with 10; lia).
    lia. }
  rewrite zfill_digits by assumption.
  replace (Z.to_nat (p - len (str (10 ^ p)))) with 0%nat by lia.
  cbn [repeat app]. split; [exact Hlen|].
  destruct (str (10 ^ p)) as [|c tl]; [contradiction|].
  inversion Hall as [|? ? Hc Htl]; subst.
  destruct (digit_of_char c) as [d|] eqn:Ed; [|contradiction].
  destruct (digit_of_char_inv c d Ed) as [Hd _].
  rewrite len_cons in Hlen.
  assert (Htl_len : len tl = p) by lia.
  pose proof (int_digits_value tl Htl) as [Htlb _].
  rewrite (digits_value_cons c tl d Ed Htl), Htl_len in Hval.
  rewrite Htl_len in Htlb.
  assert (d = 1) by nia. subst d.
  cbn [skipn].
  rewrite (zeros_of_value_zero tl Htl) by lia.
  f_equal. unfold len in Htl_len. lia.
Qed.

(** The text returned on well-formed input, branch by branch. *)
Lemma round_decimal_form (s : pystr) (p : Z) :
  all_digits s -> 1 <= p < len s ->
  round_decimal s p
  = Ret (if digits_value (firstn 1 (skipn (Z.to_nat p) s)) >=? 5
         then if digits_value (firstn (Z.to_nat p) s) + 1 =? 10 ^ p
              then repeat "0"%char (Z.to_nat p)
              else zfill (str (digits_value (firstn (Z.to_nat p) s) + 1)) p
         else firstn (Z.to_nat p) s).
Proof.
  intros Hs Hp.
  assert (Hpow : 0 < 10 ^ p) by (apply Z.pow_pos_nonneg; lia).
  destruct (split_at_round_digit s p Hs ltac:(lia))
    as (c & d & Ec & Ed & Hd & Hpre & Hlen).
  pose proof (int_digits_value _ Hpre) as [Hbound _]. rewrite Hlen in Hbound.
  assert (Hc1 : all_digits [c]) by (repeat constructor; congruence).
  assert (Hpre_ne : firstn (Z.to_nat p) s <> []).
  { intro E. rewrite E in Hlen. change (len []) with 0 in Hlen. lia. }
  unfold round_decimal.
  destruct (Z.gtb_spec (len s) p) as [_|]; [|lia].
  rewrite Ec, (int_of_digits [c] Hc1) by discriminate. cbn [bind].
  destruct (Z.geb_spec (digits_value [c]) 5) as [_|_]; [|reflexivity].
  rewrite (int_of_digits _ Hpre Hpre_ne). cbn [bind].
  destruct (Z.eqb_spec (digits_value (firstn (Z.to_nat p) s) + 1) (10 ^ p))
    as [E|Hne].
  - rewrite E. destruct (zfill_str_pow10 p ltac:(lia)) as [Hl Hz].
    rewrite Hl, Hz.
    destruct (Z.gtb_spec (p + 1) p) as [_|]; [reflexivity|lia].
  - destruct (zfill_str_fits (digits_value (firstn (Z.to_nat p) s) + 1) p)
      as (Hl & _ & _); [lia|lia|].
    rewrite Hl.
    destruct (Z.gtb_spec p p) as [|_]; [lia|reflexivity].
Qed.

(** What every caller can rely on: [p] digit characters come back. *)
Lemma round_decimal_shape (s : pystr) (p : Z) :
  all_digits s -> 1 <= p < len s ->
  exists out : pystr,
    round_decimal s p = Ret out /\ len out = p /\ all_digits out.
Proof.
  intros Hs Hp.
  destruct (split_at_round_digit s p Hs ltac:(lia))
    as (c & d & _ & _ & _ & Hpre & Hlen).
  pose proof (int_digits_value _ Hpre) as [Hbound _]. rewrite Hlen in Hbound.
  rewrite round_decimal_form by assumption.
  eexists. split; [reflexivity|].
  destruct (digits_value (firstn 1 (skipn (Z.to_nat p) s)) >=? 5);
    [|split; assumption].
  destruct (Z.eqb_spec (digits_value (firstn (Z.to_nat p) s) + 1) (10 ^ p)).
  - split; [|apply all_digits_zeros].
    unfold len. rewrite repeat_length. lia.
  - destruct (zfill_str_fits (digits_value (firstn (Z.to_nat p) s) + 1) p)
      as (Hl & Ha & _); [lia|lia|].
    split; assumption.
Qed.

(** X10: the step returns the first [p] characters untouched when there is
    no character after them, or when the text is made of digits and the
    character after them is a digit below 5. *)
Theorem round_decimal_keeps_prefix (s : pystr) (p : Z) :
  0 <= p ->
  len s <= p \/
  (all_digits s /\ digits_value (firstn 1 (skipn (Z.to_nat p) s)) < 5) ->
  round_decimal s p = Ret (firstn (Z.to_nat p) s).
Proof.
  intros Hp Hcase. unfold round_decimal.
  destruct (Z.gtb_spec (len s) p) as [Hgt|Hle].
  - destruct Hcase as [|[Hs Hd]]; [lia|].
    destruct (split_at_round_digit s p Hs ltac:(lia))
      as (c & d & Ec & Ed & _ & _ & _).
    assert (Hc1 : all_digits [c]) by (repeat constructor; congruence).
    rewrite Ec in *. rewrite (int_of_digits [c] Hc1) by discriminate.
    cbn [bind].
    destruct (Z.geb_spec (digits_value [c]) 5); [lia|reflexivity].
  - reflexivity.
Qed.

Lemma round_decimal_keeps_prefix_witness :
  0 <= 5 /\
  round_decimal (chars "141592") 5 = Ret (firstn (Z.to_nat 5) (chars "141592")).
Proof.
  assert (H : all_digits (chars "141592")) by (repeat constructor; discriminate).
  split; [lia|].
  apply (round_decimal_keeps_prefix (chars "141592") 5); [lia|].
  right. split; [exact H|]. vm_compute. reflexivity.
Defined.

(** X11: on a text of digits longer than [p >= 1], when the rounded
    numeral does not fit in [p] digits the step returns [p] zeros, and
    otherwise it returns [p] digits that write exactly the rounded
    numeral. *)
Theorem round_decimal_carry_or_exact (s : pystr) (p : Z) :
  all_digits s -> 1 <= p < len s ->
  exists out : pystr,
    round_decimal s p = Ret out /\
    if carry_out s p then out = repeat "0"%char (Z.to_nat p)
    else len out = p /\ digits_value out = rounded_value s p.
Proof.
  intros Hs Hp.
  destruct (split_at_round_digit s p Hs ltac:(lia))
    as (c & d & _ & _ & _ & Hpre & Hlen).
  pose proof (int_digits_value _ Hpre) as [Hbound _]. rewrite Hlen in Hbound.
  rewrite round_decimal_form by assumption.
  eexists. split; [reflexivity|].
  unfold carry_out, rounded_value.
  destruct (digits_value (firstn 1 (skipn (Z.to_nat p) s)) >=? 5).
  - destruct (Z.eqb_spec (digits_value (firstn (Z.to_nat p) s) + 1) (10 ^ p))
      as [E|Hne].
    + destruct (Z.leb_spec (10 ^ p) (digits_value (firstn (Z.to_nat p) s) + 1));
        [reflexivity|lia].
    + destruct (Z.leb_spec (10 ^ p) (digits_value (firstn (Z.to_nat p) s) + 1));
        [lia|].
      destruct (zfill_str_fits (digits_value (firstn (Z.to_nat p) s) + 1) p)
        as (Hl & _ & Hv); [lia|lia|].
      split; assumption.
  - rewrite Z.add_0_r.
    destruct (Z.leb_spec (10 ^ p) (digits_value (firstn (Z.to_nat p) s)));
      [lia|].
    split; [assumption|reflexivity].
Qed.

Lemma round_decimal_carry_or_exact_witness :
  all_digits (chars "129995") /\ 1 <= 5 < len (chars "129995") /\
  exists out : pystr,
    round_decimal (chars "129995") 5 = Ret out /\
    if carry_out (chars "129995") 5 then out = repeat "0"%char (Z.to_nat 5)
    else len out = 5 /\ digits_value out = rounded_value (chars "129995") 5.
Proof.
  assert (H : all_digits (chars "129995")) by (repeat constructor; discriminate).
  split; [exact H|]. split; [cbn; lia|].
  apply (round_decimal_carry_or_exact (chars "129995") 5 H). cbn. lia.
Defined.

(** ** Ranges computed apart and merged *)

(** What [compute_pi_terms] returns on any range with [start >= 0], empty
    or not. *)
Lemma compute_pi_terms_value (start end_ : Z) :
  0 <= start ->
  compute_pi_terms start end_ = Ret (from_scratch start end_) /\
  reduced (from_scratch start end_) /\
  (Qvalue (from_scratch start end_) == series_sum start end_)%Q.
Proof.
  intro H.
  destruct zero_rational as (Hp0 & Hl0 & Hq0).
  destruct (scratch_fold_spec (range start (end_ + 1))
              (range_nonneg start (end_ + 1) H) (0, 1) Hp0 Hl0) as (Hp & Hl & Hq).
  fold (from_scratch start end_) in Hp, Hl, Hq.
  split; [|split; [split; assumption|]].
  - unfold compute_pi_terms. rewrite initial_state_at by assumption.
    cbn [bind]. f_equal.
    pose proof (run_terms_range start (Z.to_nat (end_ + 1 - start)) H) as Hrun.
    destruct (Z.le_gt_cases start (end_ + 1)) as [Hle|Hgt].
    + replace (start + Z.of_nat (Z.to_nat (end_ + 1 - start))) with (end_ + 1)
        in Hrun by lia.
      now rewrite Hrun.
    + unfold from_scratch. rewrite range_empty by lia. reflexivity.
  - rewrite Hq. unfold series_sum. apply series_fold_compat. exact Hq0.
Qed.

Lemma series_fold_shift (ks : list Z) (a : Q) :
  (fold_left (fun acc k => acc + term k) ks a ==
   a + fold_left (fun acc k => acc + term k) ks 0)%Q.
Proof.
  revert a. induction ks as [|k ks IH]; intro a; cbn [fold_left].
  - ring.
  - rewrite IH, (IH (0 + term k)%Q). ring.
Qed.

Lemma range_split (a b c : Z) :
  a <= b <= c -> range a c = range a b ++ range b c.
Proof.
  intro H. replace c with (b + Z.of_nat (Z.to_nat (c - b))) by lia.
  induction (Z.to_nat (c - b)) as [|n IH].
  - rewrite Z.add_0_r, (range_empty b b), app_nil_r by lia. reflexivity.
  - replace (b + Z.of_nat (S n)) with (b + Z.of_nat n + 1) by lia.
    rewrite !range_snoc by lia. now rewrite IH, app_assoc.
Qed.

(** The sum over a range is the sum over its two halves. *)
Lemma series_sum_split (a b c : Z) :
  a <= b + 1 <= c + 1 ->
  (series_sum a c == series_sum a b + series_sum (b + 1) c)%Q.
Proof.
  intro H. unfold series_sum.
  rewrite (range_split a (b + 1) (c + 1)) by lia.
  rewrite fold_left_app. apply series_fold_shift.
Qed.

Lemma series_sum_empty (a b : Z) : b < a -> series_sum a b = 0%Q.
Proof. intro H. unfold series_sum. now rewrite range_empty by lia. Qed.

(** X12: a range cut in two, each part computed by its own call and the two
    results merged, gives the very pair the call on the whole range
    returns. *)
Theorem compute_pi_terms_split_merge (a b c : Z) :
  0 <= a <= b -> b < c ->
  exists r1 r2 : Z * Z,
    compute_pi_terms a b = Ret r1 /\
    compute_pi_terms (b + 1) c = Ret r2 /\
    compute_pi_terms a c = Ret (merge_step r1 r2) /\
    merge_results [r1; r2] = compute_pi_terms a c.
Proof.
  intros Hab Hbc.
  destruct (compute_pi_terms_value a b ltac:(lia)) as (E1 & [Hp1 _] & Hq1).
  destruct (compute_pi_terms_value (b + 1) c ltac:(lia)) as (E2 & [Hp2 _] & Hq2).
  destruct (compute_pi_terms_value a c ltac:(lia)) as (E & [Hp Hl] & Hq).
  exists (from_scratch a b), (from_scratch (b + 1) c).
  destruct (merge_step_spec _ _ Hp1 Hp2) as ([Hpm Hlm] & Hqm).
  assert (Em : merge_step (from_scratch a b) (from_scratch (b + 1) c)
               = from_scratch a c).
  { apply lowest_terms_unique; try assumption.
    rewrite Hqm, Hq1, Hq2, Hq. symmetry. apply series_sum_split. lia. }
  split; [exact E1|]. split; [exact E2|].
  rewrite E. cbn [merge_results fold_left]. rewrite Em. split; reflexivity.
Qed.

Lemma compute_pi_terms_split_merge_witness :
  0 <= 0 <= 1 /\ 1 < 3 /\
  exists r1 r2 : Z * Z,
    compute_pi_terms 0 1 = Ret r1 /\
    compute_pi_terms (1 + 1) 3 = Ret r2 /\
    compute_pi_terms 0 3 = Ret (merge_step r1 r2) /\
    merge_results [r1; r2] = compute_pi_terms 0 3.
Proof.
  split; [lia|]. split; [lia|].
  apply (compute_pi_terms_split_merge 0 1 3); lia.
Defined.

(** ** The partial sums put together by [main] *)

Lemma starmap_compute (l : list (Z * Z)) :
  Forall (fun r => 0 <= fst r) l ->
  starmap compute_pi_terms l
  = Ret (map (fun r => from_scratch (fst r) (snd r)) l).
Proof.
  induction 1 as [|[a b] l Ha _ IH]; [reflexivity|].
  cbn [starmap map fst snd] in *.
  rewrite (proj1 (compute_pi_terms_value a b Ha)), IH. reflexivity.
Qed.

Lemma rational_sum_app (l1 l2 : list (Z * Z)) :
  (rational_sum (l1 ++ l2) == rational_sum l1 + rational_sum l2)%Q.
Proof.
  induction l1 as [|r l1 IH]; cbn [app rational_sum fold_right].
  - fold (rational_sum l2). ring.
  - fold (rational_sum (l1 ++ l2)) (rational_sum l1). rewrite IH. ring.
Qed.

(** The first [j] chunks add up to the series up to the end of chunk
    [j - 1], cut at [T]. *)
Lemma chunks_sum (T cs : Z) (j : nat) :
  1 <= cs -> 0 <= T ->
  (rational_sum
     (map (fun r => from_scratch (fst r) (snd r))
          (map (fun i => (i * cs, Z.min ((i + 1) * cs - 1) T)%Z)
               (range 0 (Z.of_nat j))))
   == series_sum 0 (Z.min (Z.of_nat j * cs - 1) T))%Q.
Proof.
  intros Hcs HT. induction j as [|j IH].
  - cbn [Z.of_nat]. rewrite range_empty by lia. cbn [map rational_sum fold_right].
    rewrite series_sum_empty by lia. reflexivity.
  - replace (Z.of_nat (S j)) with (Z.of_nat j + 1) by lia.
    rewrite range_snoc by lia. rewrite !map_app, rational_sum_app, IH.
    cbn [map rational_sum fold_right fst snd].
    destruct (compute_pi_terms_value (Z.of_nat j * cs)
                (Z.min ((Z.of_nat j + 1) * cs - 1) T) ltac:(nia)) as (_ & _ & Hq).
    rewrite Hq, Qplus_0_r.
    destruct (Z.le_gt_cases (Z.of_nat j * cs - 1) T) as [Hle|Hgt].
    + rewrite (Z.min_l (Z.of_nat j * cs - 1) T) by lia.
      replace (Z.of_nat j * cs) with (Z.of_nat j * cs - 1 + 1) at 2 by lia.
      symmetry. apply series_sum_split. lia.
    + rewrite (Z.min_r (Z.of_nat j * cs - 1) T) by lia.
      rewrite (Z.min_r ((Z.of_nat j + 1) * cs - 1) T) by nia.
      rewrite (series_sum_empty (Z.of_nat j * cs) T) by lia. ring.
Qed.

(** The pair [main] holds after the merge. *)
Lemma series_total_value (cpu_count T : Z) :
  1 <= cpu_count -> 1 <= T ->
  exists S : Z * Z,
    series_total cpu_count T = Ret S /\
    reduced S /\
    (Qvalue S ==
     series_sum 0 (if T mod Z.min cpu_count T =? 0 then T - 1 else T))%Q.
Proof.
  intros Hc HT.
  unfold series_total, main_ranges.
  remember (Z.min cpu_count T) as W eqn:EW.
  assert (HW : 1 <= W <= T) by lia.
  destruct (chunk_size_bounds T W HW) as [Hcs HTcs].
  pose proof (partition_ranges_last_index T W HW) as Hlast.
  rewrite partition_ranges_value by lia. cbn [bind].
  remember ((T + W - 1) / W) as cs eqn:Ecs.
  set (f := fun i : Z => (i * cs, Z.min ((i + 1) * cs - 1) T)).
  rewrite starmap_compute.
  2:{ apply Forall_forall. intros r Hr. apply in_map_iff in Hr.
      destruct Hr as (i & <- & Hi). apply in_range in Hi.
      unfold f. cbn [fst]. nia. }
  cbn [bind].
  pose proof (chunks_sum T cs (Z.to_nat W) Hcs ltac:(lia)) as Hsum.
  rewrite Z2Nat.id in Hsum by lia. fold f in Hsum.
  assert (Elast : Z.min (W * cs - 1) T = if T mod W =? 0 then T - 1 else T).
  { destruct (Z.eqb_spec (T mod W) 0); lia. }
  rewrite Elast in Hsum.
  assert (Hall : Forall reduced (map (fun r => from_scratch (fst r) (snd r))
                                     (map f (range 0 W)))).
  { apply Forall_forall. intros r Hr. apply in_map_iff in Hr.
    destruct Hr as (r' & <- & Hr'). apply in_map_iff in Hr'.
    destruct Hr' as (i & <- & Hi). apply in_range in Hi.
    unfold f. cbn [fst snd].
    apply compute_pi_terms_value. nia. }
  destruct (map (fun r => from_scratch (fst r) (snd r)) (map f (range 0 W)))
    as [|r0 rest] eqn:El.
  - apply (f_equal (@List.length _)) in El.
    rewrite !length_map, length_range in El. cbn in El. lia.
  - inversion Hall as [|? ? [Hp0 Hl0] Hrest]; subst.
    assert (Hrest_pos : Forall positive_den rest).
    { eapply Forall_impl; [|exact Hrest]. now intros a [Ha _]. }
    destruct (merge_fold_spec rest Hrest_pos r0 Hp0) as (Hp & Hl & Hq).
    eexists. split; [reflexivity|]. split.
    + split; [exact Hp|].
      destruct rest as [|r1 rest']; [exact Hl0|apply Hl; discriminate].
    + rewrite Hq. cbn [rational_sum fold_right] in Hsum. exact Hsum.
Qed.

(** X13: for at least one core and one term, the merged pair of [main] is
    in lowest terms with a positive denominator and its value is the exact
    sum of the terms [0 .. T], or [0 .. T - 1] when the number of workers
    divides [T]. *)
Theorem series_total_exact (cpu_count T : Z) :
  1 <= cpu_count -> 1 <= T ->
  exists S : Z * Z,
    series_total cpu_count T = Ret S /\
    0 < snd S /\ Z.gcd (Z.abs (fst S)) (snd S) = 1 /\
    (Qvalue S ==
     series_sum 0 (if T mod Z.min cpu_count T =? 0 then T - 1 else T))%Q.
Proof.
  intros Hc HT.
  destruct (series_total_value cpu_count T Hc HT) as (S & E & [Hp Hl] & Hq).
  exists S. repeat split; assumption.
Qed.

Lemma series_total_exact_witness :
  1 <= 4 /\ 1 <= 20 /\
  exists S : Z * Z,
    series_total 4 20 = Ret S /\
    0 < snd S /\ Z.gcd (Z.abs (fst S)) (snd S) = 1 /\
    (Qvalue S == series_sum 0 (if 20 mod Z.min 4 20 =? 0 then 20 - 1 else 20))%Q.
Proof.
  split; [lia|]. split; [lia|]. apply (series_total_exact 4 20); lia.
Defined.

(** ** The sum of the series is positive *)

Lemma Qdiv_make (a b : Z) :
  0 < b -> (inject_Z a / inject_Z b == a # Z.to_pos b)%Q.
Proof.
  intro H. rewrite Qmake_Qdiv, Z2Pos.id by assumption. reflexivity.
Qed.

Lemma fact_6_succ (k : Z) :
  0 <= k ->
  fact_nat (Z.to_nat (6 * (k + 1)))
  = fact_nat (Z.to_nat (6 * k))
    * ((6 * k + 1) * (6 * k + 2) * (6 * k + 3)
       * (6 * k + 4) * (6 * k + 5) * (6 * k + 6)).
Proof.
  intro H.
  replace (Z.to_nat (6 * (k + 1))) with (6 + Z.to_nat (6 * k))%nat by lia.
  cbn [Nat.add]. rewrite !fact_nat_S, !Nat2Z.inj_succ, Z2Nat.id by lia.
  ring.
Qed.

Lemma fact_3_succ (k : Z) :
  0 <= k ->
  fact_nat (Z.to_nat (3 * (k + 1)))
  = fact_nat (Z.to_nat (3 * k)) * ((3 * k + 1) * (3 * k + 2) * (3 * k + 3)).
Proof.
  intro H.
  replace (Z.to_nat (3 * (k + 1))) with (3 + Z.to_nat (3 * k))%nat by lia.
  cbn [Nat.add]. rewrite !fact_nat_S, !Nat2Z.inj_succ, Z2Nat.id by lia.
  ring.
Qed.

Lemma fact_1_succ (k : Z) :
  0 <= k -> fact_nat (Z.to_nat (k + 1)) = (k + 1) * fact_nat (Z.to_nat k).
Proof.
  intro H. replace (Z.to_nat (k + 1)) with (S (Z.to_nat k)) by lia.
  rewrite fact_nat_S, Z2Nat.id by lia. reflexivity.
Qed.

(** The inequality behind the fast decrease of the terms, cleared of the
    factors both sides share. *)
Lemma term_ratio_core (k L : Z) :
  0 <= k -> 13591409 <= L ->
  3 * ((6 * k + 1) * (6 * k + 2) * (6 * k + 3)
       * (6 * k + 4) * (6 * k + 5) * (6 * k + 6))
    * (L + 545140134)
  <= L * ((3 * k + 1) * (3 * k + 2) * (3 * k + 3)) * (k + 1) ^ 3 * 640320 ^ 3.
Proof.
  intros Hk HL.
  set (P3 := (3 * k + 1) * (3 * k + 2) * (3 * k + 3)).
  assert (HP3 : 0 < P3) by (subst P3; nia).
  assert (E6 : (6 * k + 1) * (6 * k + 2) * (6 * k + 3)
               * (6 * k + 4) * (6 * k + 5) * (6 * k + 6)
               = 8 * P3 * ((6 * k + 1) * (6 * k + 3) * (6 * k + 5)))
    by (subst P3; ring).
  rewrite E6.
  assert (HQ : (6 * k + 1) * (6 * k + 3) * (6 * k + 5) <= 216 * (k + 1) ^ 3).
  { replace (216 * (k + 1) ^ 3) with ((6 * k + 6) * (6 * k + 6) * (6 * k + 6)) by ring.
    apply Z.mul_le_mono_nonneg; [nia|apply Z.mul_le_mono_nonneg; lia|lia|lia]. }
  assert (Hk3 : 0 < (k + 1) ^ 3) by (apply Z.pow_pos_nonneg; lia).
  assert (HL1 : L + 545140134 <= 42 * L) by lia.
  change (640320 ^ 3) with 262537412640768000.
  set (Q3 := (6 * k + 1) * (6 * k + 3) * (6 * k + 5)) in *.
  set (K3 := (k + 1) ^ 3) in *.
  assert (0 <= Q3) by (subst Q3; nia).
  assert (H1 : Q3 * (L + 545140134) <= (216 * K3) * (42 * L))
    by (apply Z.mul_le_mono_nonneg; lia).
  clearbody P3 Q3 K3.
  assert (HY : 0 <= P3 * (K3 * L)) by (apply Z.mul_nonneg_nonneg; nia).
  apply Z.le_trans with (24 * P3 * (216 * K3 * (42 * L))).
  - replace (3 * (8 * P3 * Q3) * (L + 545140134))
      with (24 * P3 * (Q3 * (L + 545140134))) by ring.
    apply Z.mul_le_mono_nonneg_l; lia.
  - replace (24 * P3 * (216 * K3 * (42 * L)))
      with (217728 * (P3 * (K3 * L))) by ring.
    replace (L * P3 * K3 * 262537412640768000)
      with (262537412640768000 * (P3 * (K3 * L))) by ring.
    apply Z.mul_le_mono_nonneg_r; lia.
Qed.

Lemma term_size_make (k : Z) :
  0 <= k ->
  (term_size k ==
   (fact_nat (Z.to_nat (6 * k)) * (545140134 * k + 13591409))
   # Z.to_pos (term_den k))%Q.
Proof. intro H. apply Qdiv_make. now apply term_den_pos. Qed.

(** Each term is at most a third of the one before. *)
Lemma term_size_decreases (k : Z) :
  0 <= k -> (3 * term_size (k + 1) <= term_size k)%Q.
Proof.
  intro H.
  pose proof (term_den_pos k H) as HD.
  pose proof (term_den_pos (k + 1) ltac:(lia)) as HD1.
  rewrite !term_size_make by lia.
  unfold Qle, Qmult. cbn [Qnum Qden].
  rewrite Pos2Z.inj_mul, !Z2Pos.id by assumption.
  unfold term_den in *.
  rewrite fact_6_succ, fact_3_succ, fact_1_succ by assumption.
  set (A := fact_nat (Z.to_nat (6 * k))) in *.
  set (B := fact_nat (Z.to_nat (3 * k))) in *.
  set (F := fact_nat (Z.to_nat k)) in *.
  assert (HA : 0 < A) by apply fact_nat_pos.
  assert (HB : 0 < B) by apply fact_nat_pos.
  assert (HF : 0 < F) by apply fact_nat_pos.
  assert (HC : 0 < (640320 ^ 3) ^ k) by (apply Z.pow_pos_nonneg; lia).
  rewrite Z.pow_add_r, Z.pow_1_r, Z.pow_mul_l by lia.
  set (Ck := (640320 ^ 3) ^ k) in *.
  pose proof (term_ratio_core k (545140134 * k + 13591409) H ltac:(lia)) as Hcore.
  replace (545140134 * (k + 1) + 13591409)
    with (545140134 * k + 13591409 + 545140134) by ring.
  set (L := 545140134 * k + 13591409) in *.
  set (P6 := (6 * k + 1) * (6 * k + 2) * (6 * k + 3)
             * (6 * k + 4) * (6 * k + 5) * (6 * k + 6)) in *.
  set (P3 := (3 * k + 1) * (3 * k + 2) * (3 * k + 3)) in *.
  assert (HF3 : 0 < F ^ 3) by (apply Z.pow_pos_nonneg; lia).
  clearbody A B F Ck L P6 P3.
  assert (HM : 0 <= A * B * F ^ 3 * Ck)
    by (repeat apply Z.mul_nonneg_nonneg; lia).
  pose proof (Z.mul_le_mono_nonneg_r _ _ _ HM Hcore) as Hmul.
  eapply Z.le_trans; [|eapply Z.le_trans; [exact Hmul|]];
    apply Z.eq_le_incl; ring.
Qed.

Lemma term_size_nonneg (k : Z) : 0 <= k -> (0 <= term_size k)%Q.
Proof.
  intro H. rewrite term_size_make by assumption.
  unfold Qle. cbn [Qnum Qden].
  pose proof (fact_nat_pos (Z.to_nat (6 * k))). nia.
Qed.

(** A term is no smaller than minus its size. *)
Lemma term_lower (k : Z) : 0 <= k -> (- term_size k <= term k)%Q.
Proof.
  intro H. pose proof (term_den_pos k H) as HD.
  unfold term. rewrite term_size_make, Qdiv_make by assumption.
  unfold Qle, Qopp. cbn [Qnum Qden].
  apply Z.mul_le_mono_nonneg_r; [lia|].
  unfold term_num. rewrite <- sign_is_power by assumption.
  pose proof (fact_nat_pos (Z.to_nat (6 * k))).
  destruct (k mod 2 =? 0); nia.
Qed.

Lemma series_sum_snoc (a b : Z) :
  a <= b + 1 -> series_sum a (b + 1) = (series_sum a b + term (b + 1))%Q.
Proof.
  intro H. unfold series_sum. rewrite (range_snoc a (b + 1)) by lia.
  now rewrite fold_left_app.
Qed.

(** The partial sums stay above half the first term. *)
Lemma series_sum_lower (n : nat) :
  (term_size 0 + term_size (Z.of_nat n) <= 2 * series_sum 0 (Z.of_nat n))%Q.
Proof.
  induction n as [|n IH].
  - cbn [Z.of_nat]. vm_compute. discriminate.
  - replace (Z.of_nat (S n)) with (Z.of_nat n + 1) by lia.
    rewrite series_sum_snoc by lia.
    pose proof (term_size_decreases (Z.of_nat n) ltac:(lia)).
    pose proof (term_lower (Z.of_nat n + 1) ltac:(lia)).
    lra.
Qed.

Lemma series_sum_positive (E : Z) : 0 <= E -> (0 < series_sum 0 E)%Q.
Proof.
  intro H. pose proof (series_sum_lower (Z.to_nat E)) as Hl.
  rewrite Z2Nat.id in Hl by assumption.
  pose proof (term_size_nonneg E H).
  assert (0 < term_size 0)%Q by (vm_compute; reflexivity).
  lra.
Qed.

Lemma Qvalue_positive (r : Z * Z) :
  0 < snd r -> (0 < Qvalue r)%Q -> 0 < fst r.
Proof.
  destruct r as [a b]. cbn [fst snd]. intros Hb Hq.
  rewrite Qvalue_make in Hq by assumption.
  unfold Qlt in Hq. cbn [Qnum Qden] in Hq. lia.
Qed.

(** X14: the merged numerator is positive: with at least one core and one
    term, [main] holds a pair [(S_num, S_den)] with [S_num > 0] and
    [S_den > 0], so the final division never has a zero divisor. *)
Theorem series_total_positive (cpu_count T : Z) :
  1 <= cpu_count -> 1 <= T ->
  exists S_num S_den : Z,
    series_total cpu_count T = Ret (S_num, S_den) /\ 0 < S_num /\ 0 < S_den.
Proof.
  intros Hc HT.
  destruct (series_total_value cpu_count T Hc HT) as ([a b] & E & [Hp Hl] & Hq).
  exists a, b. split; [exact E|]. split; [|exact Hp].
  apply (Qvalue_positive (a, b) Hp). rewrite Hq.
  apply series_sum_positive. destruct (_ =? 0); lia.
Qed.

Lemma series_total_positive_witness :
  1 <= 8 /\ 1 <= 20 /\
  exists S_num S_den : Z,
    series_total 8 20 = Ret (S_num, S_den) /\ 0 < S_num /\ 0 < S_den.
Proof.
  split; [lia|]. split; [lia|]. apply (series_total_positive 8 20); lia.
Defined.

(** ** From the fraction to the digits *)

Lemma digits_value_single (d : Z) :
  0 <= d <= 9 -> digits_value [digit_char d] = d.
Proof.
  intro H. rewrite (digits_value_cons _ [] d (digit_of_digit_char d H))
    by constructor.
  change (digits_value []) with 0. change (len []) with 0. lia.
Qed.

(** Long division asked for [p + 1] digits and then rounded to [p]: the
    text is [p] digits that write, modulo [10^p], the fractional part cut
    after [p] digits plus one when the next digit is 5 or more. *)
Lemma division_then_round (num den p : Z) :
  den <> 0 -> 1 <= p ->
  exists s out : pystr,
    high_precision_division num den (p + 1) = Ret s /\
    round_decimal s p = Ret out /\
    len out = p /\ all_digits out /\
    digits_value out
    = ((num mod den) * 10 ^ p / den
       + (if 5 <=? frac_digit num den (p + 1) then 1 else 0)) mod 10 ^ p.
Proof.
  intros Hden Hp.
  assert (Hpow : 0 < 10 ^ p) by (apply Z.pow_pos_nonneg; lia).
  destruct (high_precision_division_form num den (p + 1) Hden ltac:(lia))
    as (M & HM & Es).
  set (g := fun k : nat => digit_char (frac_digit num den (Z.of_nat k + 1))) in *.
  set (s := map g (seq 0 M)) in *.
  assert (Hs : all_digits s) by apply (frac_digits_value num den M Hden).
  assert (Hlen : len s = Z.of_nat M)
    by (unfold len, s; now rewrite length_map, length_seq).
  assert (Hpre : firstn (Z.to_nat p) s = map g (seq 0 (Z.to_nat p))).
  { unfold s. rewrite firstn_map, firstn_seq_min. do 2 f_equal. lia. }
  assert (Hnext : firstn 1 (skipn (Z.to_nat p) s) = [g (Z.to_nat p)]).
  { unfold s. rewrite skipn_map, skipn_seq.
    replace (M - Z.to_nat p)%nat with (S (M - Z.to_nat p - 1)) by lia.
    reflexivity. }
  assert (Hv : digits_value (firstn (Z.to_nat p) s) = (num mod den) * 10 ^ p / den).
  { rewrite Hpre. unfold g.
    rewrite (proj2 (frac_digits_value num den (Z.to_nat p) Hden)).
    now rewrite Z2Nat.id by lia. }
  assert (Hd : digits_value (firstn 1 (skipn (Z.to_nat p) s))
               = frac_digit num den (p + 1)).
  { rewrite Hnext. unfold g. rewrite Z2Nat.id by lia.
    apply digits_value_single, frac_digit_bounds. }
  assert (Hb : 0 <= (num mod den) * 10 ^ p / den < 10 ^ p).
  { rewrite <- Hv.
    assert (Hpa : all_digits (firstn (Z.to_nat p) s)).
    { rewrite Hpre. apply (frac_digits_value num den (Z.to_nat p) Hden). }
    pose proof (int_digits_value _ Hpa) as [Hbd _].
    replace (len (firstn (Z.to_nat p) s)) with p in Hbd; [exact Hbd|].
    rewrite Hpre. unfold len. rewrite length_map, length_seq. lia. }
  exists s.
  rewrite Es, round_decimal_form by (try assumption; lia).
  rewrite Hv, Hd.
  set (V := (num mod den) * 10 ^ p / den) in *.
  eexists. split; [reflexivity|]. split; [reflexivity|].
  destruct (Z.geb_spec (frac_digit num den (p + 1)) 5) as [Hup|Hdown];
    destruct (Z.leb_spec 5 (frac_digit num den (p + 1))) as [Hup'|Hdown'];
    try lia.
  - destruct (Z.eqb_spec (V + 1) (10 ^ p)) as [E|Hne].
    + split; [unfold len; rewrite repeat_length; lia|].
      split; [apply all_digits_zeros|].
      rewrite digits_value_zeros, E, Z.mod_same by lia. reflexivity.
    + destruct (zfill_str_fits (V + 1) p) as (Hl & Ha & Hval); [lia|lia|].
      split; [exact Hl|]. split; [exact Ha|].
      rewrite Hval, Z.mod_small by lia. reflexivity.
  - split; [|split].
    + rewrite Hpre. unfold len. rewrite length_map, length_seq. lia.
    + rewrite Hpre. apply (frac_digits_value num den (Z.to_nat p) Hden).
    + rewrite Hv, Z.add_0_r, Z.mod_small by lia. reflexivity.
Qed.

(** Lines 265-289 for a non-zero merged numerator. *)
Lemma final_digits_spec (S_num S_den p : Z) :
  S_num <> 0 -> 1 <= p ->
  exists (fuel0 : nat) (out : pystr),
    (forall fuel : nat, (fuel0 <= fuel)%nat ->
       final_digits fuel S_num S_den p = Ret out) /\
    len out = p /\ all_digits out /\
    digits_value out
    = (((640320 * Z.sqrt (640320 * 10 ^ (2 * (p + 20))) * S_den)
        mod (12 * S_num * 10 ^ (p + 20))) * 10 ^ p
       / (12 * S_num * 10 ^ (p + 20))
       + (if 5 <=? frac_digit
                     (640320 * Z.sqrt (640320 * 10 ^ (2 * (p + 20))) * S_den)
                     (12 * S_num * 10 ^ (p + 20)) (p + 1)
          then 1 else 0)) mod 10 ^ p.
Proof.
  intros HS Hp.
  destruct (high_precision_sqrt_640320 (p + 20) ltac:(lia)) as [fuel0 Hsqrt].
  assert (Hden : 12 * S_num * 10 ^ (p + 20) <> 0).
  { assert (0 < 10 ^ (p + 20)) by (apply Z.pow_pos_nonneg; lia). nia. }
  destruct (division_then_round
              (640320 * Z.sqrt (640320 * 10 ^ (2 * (p + 20))) * S_den)
              (12 * S_num * 10 ^ (p + 20)) p Hden Hp)
    as (s & out & Ediv & Eround & Hlen & Hall & Hval).
  exists fuel0, out. split; [|split; [exact Hlen|split; [exact Hall|exact Hval]]].
  intros fuel Hfuel. unfold final_digits.
  rewrite Hsqrt by exact Hfuel. cbn [bind].
  rewrite Ediv. cbn [bind]. exact Eround.
Qed.

(** X15: for a non-zero merged numerator and [p >= 1] digits, the last
    stage returns exactly [p] digit characters, which write the fractional
    part of [640320 * x * S_den / (12 * S_num * 10^(p+20))] rounded half up
    at [p] digits and reduced modulo [10^p], [x] being the integer square
    root of [640320 * 10^(2(p+20))]; no square root loop runs for ever and
    no division is by zero. *)
Theorem final_digits_rounds (S_num S_den p : Z) :
  S_num <> 0 -> 1 <= p ->
  exists (fuel0 : nat) (x : Z) (out : pystr),
    x * x <= 640320 * 10 ^ (2 * (p + 20)) < (x + 1) * (x + 1) /\
    (forall fuel : nat, (fuel0 <= fuel)%nat ->
       final_digits fuel S_num S_den p = Ret out) /\
    len out = p /\ all_digits out /\
    digits_value out
    = (((640320 * x * S_den) mod (12 * S_num * 10 ^ (p + 20))) * 10 ^ p
       / (12 * S_num * 10 ^ (p + 20))
       + (if 5 <=? frac_digit (640320 * x * S_den)
                              (12 * S_num * 10 ^ (p + 20)) (p + 1)
          then 1 else 0)) mod 10 ^ p.
Proof.
  intros HS Hp.
  destruct (final_digits_spec S_num S_den p HS Hp)
    as (fuel0 & out & Hrun & Hlen & Hall & Hval).
  exists fuel0, (Z.sqrt (640320 * 10 ^ (2 * (p + 20)))), out.
  split; [|split; [exact Hrun|split; [exact Hlen|split; [exact Hall|exact Hval]]]].
  assert (0 < 10 ^ (2 * (p + 20))) by (apply Z.pow_pos_nonneg; lia).
  pose proof (Z.sqrt_spec (640320 * 10 ^ (2 * (p + 20))) ltac:(nia)) as Hs.
  cbv zeta in Hs. lia.
Qed.

Lemma final_digits_rounds_witness :
  7 <> 0 /\ 1 <= 3 /\
  exists (fuel0 : nat) (x : Z) (out : pystr),
    x * x <= 640320 * 10 ^ (2 * (3 + 20)) < (x + 1) * (x + 1) /\
    (forall fuel : nat, (fuel0 <= fuel)%nat ->
       final_digits fuel 7 2 3 = Ret out) /\
    len out = 3 /\ all_digits out /\
    digits_value out
    = (((640320 * x * 2) mod (12 * 7 * 10 ^ (3 + 20))) * 10 ^ 3
       / (12 * 7 * 10 ^ (3 + 20))
       + (if 5 <=? frac_digit (640320 * x * 2) (12 * 7 * 10 ^ (3 + 20)) (3 + 1)
          then 1 else 0)) mod 10 ^ 3.
Proof.
  split; [lia|]. split; [lia|]. apply (final_digits_rounds 7 2 3); lia.
Defined.

(** X16: with at least one core and a precision of at least one digit, the
    whole computation of [main] ends without an exception and yields
    exactly [precision_digits] digit characters. *)
Theorem main_digits_total (cpu_count precision_digits : Z) :
  1 <= cpu_count -> 1 <= precision_digits ->
  exists (fuel0 : nat) (out : pystr),
    (forall fuel : nat, (fuel0 <= fuel)%nat ->
       main_digits fuel cpu_count precision_digits = Ret out) /\
    len out = precision_digits /\ all_digits out.
Proof.
  intros Hc Hp.
  assert (HT : 1 <= estimate_terms_needed precision_digits)
    by (unfold estimate_terms_needed; lia).
  destruct (series_total_value cpu_count _ Hc HT) as (S & E & [Hpos _] & Hq).
  assert (HS : 0 < fst S).
  { apply (Qvalue_positive S Hpos). rewrite Hq.
    apply series_sum_positive. destruct (_ =? 0); lia. }
  destruct (final_digits_spec (fst S) (snd S) precision_digits ltac:(lia) Hp)
    as (fuel0 & out & Hrun & Hlen & Hall & _).
  exists fuel0, out. split; [|split; assumption].
  intros fuel Hfuel. unfold main_digits. rewrite E. cbn [bind].
  now apply Hrun.
Qed.

Lemma main_digits_total_witness :
  1 <= 4 /\ 1 <= 20 /\
  exists (fuel0 : nat) (out : pystr),
    (forall fuel : nat, (fuel0 <= fuel)%nat -> main_digits fuel 4 20 = Ret out) /\
    len out = 20 /\ all_digits out.
Proof.
  split; [lia|]. split; [lia|]. apply (main_digits_total 4 20); lia.
Defined.
